(** * RescuNet: cache keys, road-graph mutators and greedy dispatch

    A shallow embedding of the core of the RescuNet backend
    ([app/cache.py], [app/models.py], [app/utils.py], [app/main.py],
    [router/python_router.py]) together with the properties stated about it.

    Conventions of the embedding.
    - Python [float] quantities (coordinates, lengths, travel costs, scores,
      Unix timestamps) are exact rationals [Q]; rounding error of the
      hardware format is not part of the model.
    - Python [int] is [Z]; [Optional[int]] is [option Z].
    - A raised exception is the [Raise] outcome of [result]; only the
      exceptions the modelled code can raise are listed in [exn].
    - Library calls whose body is not part of the repository (Dijkstra from
      networkx, shapely's projections, osmnx's nearest-edge search, the
      salted string hash, the learned probability model) are Section
      variables: every theorem holds for any behaviour of them. *)

From Stdlib Require Import ZArith QArith Qround Qabs List String Ascii Bool Lia Lqa.
From stdpp Require Import base option list gmap strings.

Open Scope Z_scope.

(** ** Outcomes *)

Inductive exn : Type :=
  | TypeError
  | ZeroDivisionError
  | KeyError
  | IndexError
  | NetworkXError
  | HTTPException (status : Z).

Inductive result (A : Type) : Type :=
  | Ok (a : A)
  | Raise (e : exn).
Arguments Ok {A} a.
Arguments Raise {A} e.

#[global] Instance result_ret : MRet result := fun A a => Ok a.
#[global] Instance result_bind : MBind result := fun A B k r =>
  match r with
  | Ok a => k a
  | Raise e => Raise e
  end.

(** A [for i, a in enumerate(l)] loop threading a state, stopped by the
    first exception. *)
Fixpoint rfoldi {A St : Type} (f : St -> nat -> A -> result St)
    (i : nat) (l : list A) (s : St) : result St :=
  match l with
  | [] => Ok s
  | a :: l' => s' ← f s i a; rfoldi f (S i) l' s'
  end.

(** ** Rational comparisons as booleans *)

Definition Qltb (a b : Q) : bool := negb (Qle_bool b a).

(** ** Request models ([app/models.py]) *)

Inductive NodeType : Type := SURVIVOR | PICKUP.

Record NodeData : Type := mkNodeData {
  nd_id : Z;
  nd_x : Q;
  nd_y : Q;
  nd_type : NodeType;
  nd_urgency : option Z;
  nd_count : option Z
}.

(** [NodeData.validate_data]: a survivor must carry urgency and count. *)
Definition validate_data (n : NodeData) : bool :=
  match nd_type n with
  | SURVIVOR => match nd_urgency n, nd_count n with
                | Some _, Some _ => true
                | _, _ => false
                end
  | PICKUP => true
  end.

Record EdgeModification : Type := mkEdgeModification {
  em_u : Z;
  em_v : Z;
  em_key : Z;
  em_state : string
}.

(** An entry of [snapped_nodes]: [{"graph_id": ..., "req": ...}]. *)
Record Snapped : Type := mkSnapped {
  graph_id : Z;
  req : NodeData
}.

(** ** Greedy dispatch ([router/python_router.py]) *)

Module Router.

Record Vehicle : Type := mkVehicle {
  v_id : nat;
  current_node : Z;
  path : list Z;
  total_distance : Q
}.

(** The four [best_*] variables of one round.  [None] stands for the
    initial values ([best_global_score = inf], both indices [-1]). *)
Record Best : Type := mkBest {
  best_global_score : Q;
  best_vehicle_idx : nat;
  best_survivor_idx : nat;
  best_segment_dist : Q
}.

(** A survivor the score is defined for: urgency and count are present
    and [urgency**2 + count] is not zero. *)
Definition scorable (s : Snapped) : Prop :=
  exists u c, nd_urgency (req s) = Some u /\ nd_count (req s) = Some c
              /\ u ^ 2 + c <> 0.

Section Routing.

(** [networkx.shortest_path_length(G, a, b, weight='travel_cost')];
    [None] is [NetworkXNoPath]. *)
Variable shortest_path_length : Z -> Z -> option Q.
(** [networkx.shortest_path(G, a, b, weight='travel_cost')]. *)
Variable shortest_path : Z -> Z -> list Z.

Definition init_vehicles (pickups_ids : list Z) : list Vehicle :=
  imap (fun i pid => mkVehicle i pid [pid] 0%Q) pickups_ids.

(** [score = arrival_time / ((urgency**2) + count)]. *)
Definition score (vehicle : Vehicle) (survivor : Snapped) (dist : Q)
    : result Q :=
  let arrival_time := (total_distance vehicle + dist)%Q in
  match nd_urgency (req survivor), nd_count (req survivor) with
  | Some urgency, Some count =>
      let denom := urgency ^ 2 + count in
      if decide (denom = 0) then Raise ZeroDivisionError
      else Ok (arrival_time / inject_Z denom)%Q
  | _, _ => Raise TypeError
  end.

(** A pair that a round scores: vehicle [v_idx] is not at the node of
    survivor [s_idx], a path of cost [dist] joins them, and the score is
    [sc]. *)
Definition candidate (pickup_vec : list Vehicle)
    (remaining_survivors : list Snapped)
    (v_idx s_idx : nat) (sc dist : Q) : Prop :=
  exists vehicle survivor,
    pickup_vec !! v_idx = Some vehicle
    /\ remaining_survivors !! s_idx = Some survivor
    /\ current_node vehicle <> graph_id survivor
    /\ shortest_path_length (current_node vehicle) (graph_id survivor)
       = Some dist
    /\ score vehicle survivor dist = Ok sc.

(** What the [best_*] variables mean once the pairs in [seen] have been
    scored. *)
Definition best_of (vec : list Vehicle) (rem : list Snapped)
    (seen : nat -> nat -> Prop) (best : option Best) : Prop :=
  match best with
  | None => forall vi si sc d, seen vi si -> ~ candidate vec rem vi si sc d
  | Some b =>
      candidate vec rem (best_vehicle_idx b) (best_survivor_idx b)
                (best_global_score b) (best_segment_dist b)
      /\ forall vi si sc d, seen vi si -> candidate vec rem vi si sc d ->
                            (best_global_score b <= sc)%Q
  end.

(** [if score < best_global_score]. *)
Definition improves (sc : Q) (best : option Best) : bool :=
  match best with
  | None => true
  | Some b => Qltb sc (best_global_score b)
  end.

(** Body of the inner [for s_idx, survivor] loop. *)
Definition consider (v_idx : nat) (vehicle : Vehicle)
    (best : option Best) (s_idx : nat) (survivor : Snapped)
    : result (option Best) :=
  let current_pos := current_node vehicle in
  let target_id := graph_id survivor in
  if decide (current_pos = target_id) then Ok best
  else match shortest_path_length current_pos target_id with
       | None => Ok best
       | Some dist =>
           sc ← score vehicle survivor dist;
           Ok (if improves sc best
               then Some (mkBest sc v_idx s_idx dist)
               else best)
       end.

(** The two nested [for] loops of one round. *)
Definition select_best (pickup_vec : list Vehicle)
    (remaining_survivors : list Snapped) : result (option Best) :=
  rfoldi (fun best v_idx vehicle =>
            rfoldi (consider v_idx vehicle) 0 remaining_survivors best)
         0 pickup_vec None.

(** "Winner found": move the winning vehicle and pop the survivor. *)
Definition assign (pickup_vec : list Vehicle)
    (remaining_survivors : list Snapped) (b : Best)
    : result (list Vehicle * list Snapped) :=
  match pickup_vec !! best_vehicle_idx b,
        remaining_survivors !! best_survivor_idx b with
  | Some winner_vehicle, Some target_survivor =>
      let path_segment :=
        shortest_path (current_node winner_vehicle)
                      (graph_id target_survivor) in
      let path' :=
        if decide (1 < length path_segment)%nat
        then path winner_vehicle ++ tail path_segment
        else path winner_vehicle in
      let winner' :=
        mkVehicle (v_id winner_vehicle) (graph_id target_survivor) path'
                  (total_distance winner_vehicle + best_segment_dist b)%Q in
      Ok (<[best_vehicle_idx b := winner']> pickup_vec,
          delete (best_survivor_idx b) remaining_survivors)
  | _, _ => Raise IndexError
  end.

(** [while remaining_survivors: ...].  The outer [option] is [None] only
    when [fuel] rounds did not finish the loop. *)
Fixpoint assign_loop (fuel : nat) (pickup_vec : list Vehicle)
    (remaining_survivors : list Snapped)
    : option (result (list Vehicle * list Snapped)) :=
  match remaining_survivors with
  | [] => Some (Ok (pickup_vec, remaining_survivors))
  | _ :: _ =>
      match fuel with
      | O => None
      | S fuel' =>
          match select_best pickup_vec remaining_survivors with
          | Raise e => Some (Raise e)
          | Ok None => Some (Ok (pickup_vec, remaining_survivors))
          | Ok (Some b) =>
              match assign pickup_vec remaining_survivors b with
              | Raise e => Some (Raise e)
              | Ok (vec', rem') => assign_loop fuel' vec' rem'
              end
          end
      end
  end.

(** Return leg: the nearest pickup by [shortest_path_length]; any
    exception inside the [try] is swallowed. *)
Definition best_return (vehicle : Vehicle) (pickups_ids : list Z)
    : option Q * list Z :=
  fold_left
    (fun (acc : option Q * list Z) pid =>
       match shortest_path_length (current_node vehicle) pid with
       | Some d =>
           if match fst acc with
              | None => true
              | Some best_return_dist => Qltb d best_return_dist
              end
           then (Some d, shortest_path (current_node vehicle) pid)
           else acc
       | None => acc
       end)
    pickups_ids (None, []).

Definition finish (pickups_ids : list Z) (pickup_vec : list Vehicle)
    : list (list Z) :=
  omap (fun vehicle =>
          if decide (length (path vehicle) <= 1)%nat then None
          else
            let best_return_path := snd (best_return vehicle pickups_ids) in
            Some (if decide (1 < length best_return_path)%nat
                  then path vehicle ++ tail best_return_path
                  else path vehicle))
       pickup_vec.

Definition solve_routes (survivors : list Snapped) (pickups_ids : list Z)
    : option (result (list (list Z))) :=
  match assign_loop (length survivors) (init_vehicles pickups_ids)
                    survivors with
  | None => None
  | Some (Raise e) => Some (Raise e)
  | Some (Ok (pickup_vec, _)) => Some (Ok (finish pickups_ids pickup_vec))
  end.

End Routing.

End Router.

(** ** Road graph and its mutators ([app/utils.py]) *)

Module Utils.

(** A LineString as its coordinate sequence [(x, y)]. *)
Definition LineString : Type := list (Q * Q).

(** The attribute dictionary of an edge.  An absent key is [None];
    [attr_other] tells whether the dictionary holds further keys
    ([osmid], [highway], ...), which the modelled code only copies. *)
Record EdgeData : Type := mkEdgeData {
  attr_length : option Q;
  attr_geometry : option LineString;
  attr_state : option string;
  attr_travel_cost : option Q;
  attr_other : bool
}.

Abbreviation EdgeKey := (Z * Z * Z)%type.

(** A networkx [MultiDiGraph]: node attributes [x], [y] by node id, and
    the edges [(u, v, key)] with their data, in insertion order. *)
Record Graph : Type := mkGraph {
  nodes : gmap Z (Q * Q);
  edges : list (EdgeKey * EdgeData)
}.

Definition present {A : Type} (o : option A) : bool :=
  match o with
  | Some _ => true
  | None => false
  end.

(** Truth value of a dictionary: empty is false. *)
Definition dict_nonempty (d : EdgeData) : bool :=
  present (attr_length d) || present (attr_geometry d)
  || present (attr_state d) || present (attr_travel_cost d)
  || attr_other d.

Fixpoint get_edge_data (es : list (EdgeKey * EdgeData)) (k : EdgeKey)
    : option EdgeData :=
  match es with
  | [] => None
  | (k', d) :: es' => if decide (k' = k) then Some d else get_edge_data es' k
  end.

(** [G.has_edge(u, v, key)]. *)
Definition has_edge_key (G : Graph) (u v key : Z) : bool :=
  bool_decide (is_Some (get_edge_data (edges G) (u, v, key))).

(** [list(G[u][v].keys())]: the keys of the parallel edges from [u] to
    [v]. *)
Definition keys_between (G : Graph) (u v : Z) : list Z :=
  omap (fun e : EdgeKey * EdgeData =>
          let '(a, b, k) := fst e in
          if decide (a = u /\ b = v) then Some k else None)
       (edges G).

(** [G.has_edge(u, v)]. *)
Definition has_edge (G : Graph) (u v : Z) : bool :=
  match keys_between G u v with
  | [] => false
  | _ :: _ => true
  end.

(** [G[u][v][key].update(...)], here through a function on the data; a
    missing edge is left alone, as [set_edge_attributes] does. *)
Definition update_edge (k : EdgeKey) (f : EdgeData -> EdgeData)
    (G : Graph) : Graph :=
  mkGraph (nodes G)
          (map (fun e : EdgeKey * EdgeData =>
                  if decide (fst e = k) then (fst e, f (snd e)) else e)
               (edges G)).

Definition set_state (s : string) (d : EdgeData) : EdgeData :=
  mkEdgeData (attr_length d) (attr_geometry d) (Some s)
             (attr_travel_cost d) (attr_other d).

(** One iteration of the loop of [edit_edges]. *)
Definition edit_edge (G : Graph) (edge : EdgeModification) : Graph :=
  let G1 :=
    if has_edge_key G (em_u edge) (em_v edge) (em_key edge)
    then update_edge (em_u edge, em_v edge, em_key edge)
                     (set_state (em_state edge)) G
    else G in
  if has_edge G1 (em_v edge) (em_u edge)
  then fold_left (fun G' k =>
                    update_edge (em_v edge, em_u edge, k)
                                (set_state (em_state edge)) G')
                 (keys_between G1 (em_v edge) (em_u edge)) G1
  else G1.

Definition edit_edges (G : Graph) (edges : list EdgeModification) : Graph :=
  fold_left edit_edge edges G.

(** [G.nodes[n]['x'], G.nodes[n]['y']]. *)
Definition node_xy (G : Graph) (n : Z) : result (Q * Q) :=
  match nodes G !! n with
  | Some xy => Ok xy
  | None => Raise KeyError
  end.

Definition add_node (G : Graph) (n : Z) (xy : Q * Q) : Graph :=
  mkGraph (<[n := xy]> (nodes G)) (edges G).

(** [dict.update]: the keys of [new] overwrite those of [old]. *)
Definition dict_update (old new : EdgeData) : EdgeData :=
  let pick {A} (o n : option A) := match n with Some _ => n | None => o end in
  mkEdgeData (pick (attr_length old) (attr_length new))
             (pick (attr_geometry old) (attr_geometry new))
             (pick (attr_state old) (attr_state new))
             (pick (attr_travel_cost old) (attr_travel_cost new))
             (attr_other old || attr_other new).

(** [G.add_edge(u, v, key=key, **attr)]: a new edge is appended, an
    existing one has its data updated. *)
Definition add_edge (G : Graph) (u v key : Z) (attr : EdgeData) : Graph :=
  match get_edge_data (edges G) (u, v, key) with
  | Some _ => update_edge (u, v, key) (fun old => dict_update old attr) G
  | None => mkGraph (nodes G) (edges G ++ [((u, v, key), attr)])
  end.

Definition remove_edge (G : Graph) (u v key : Z) : Graph :=
  mkGraph (nodes G)
          (filter (fun e : EdgeKey * EdgeData => fst e <> (u, v, key))
                  (edges G)).

Definition coords_first (line : LineString) : result (Q * Q) :=
  match line with
  | [] => Raise IndexError
  | c :: _ => Ok c
  end.

Definition coords_last (line : LineString) : result (Q * Q) :=
  match last line with
  | None => Raise IndexError
  | Some c => Ok c
  end.

(** The synthetic id: [hash(...) % 10000000 * -1]. *)
Definition new_node_id_of (h : Z) : Z := h mod 10000000 * -1.

Section Geometry.

(** [haversine_distance(lat1, lon1, lat2, lon2)]: its body is
    trigonometric ([sin], [cos], [atan2], [sqrt] of [math]) and is kept
    abstract. *)
Variable haversine_distance : Q -> Q -> Q -> Q -> Q.

(** shapely: [line.project(Point(p))], [line.interpolate(d)],
    [substring(line, a, b)], [line.length]. *)
Variable project : LineString -> Q * Q -> Q.
Variable interpolate : LineString -> Q -> Q * Q.
Variable substring : LineString -> Q -> Q -> LineString.
Variable line_length : LineString -> Q.

(** [hash(f"{u}-{v}-{key}-{t}")] for a clock reading [t]. *)
Variable str_hash : Z -> Z -> Z -> Q -> Z.

(** osmnx [nearest_edges(G_undir, x, y)] on the undirected view taken
    once, before the loop of [integrate_nodes_into_graph]. *)
Variable nearest_edges : Q -> Q -> EdgeKey.

(** [time()] at its n-th call. *)
Variable time : nat -> Q.

Definition split_edge_at_point (now : Q) (G : Graph) (u v key : Z)
    (point_coords : Q * Q) : result (option Z * Graph) :=
  match get_edge_data (edges G) (u, v, key) with
  | None => Ok (None, G)
  | Some data =>
      line ← match attr_geometry data with
             | Some line => Ok line
             | None =>
                 xy_u ← node_xy G u;
                 xy_v ← node_xy G v;
                 Ok [xy_u; xy_v]
             end;
      '(u_x, u_y) ← node_xy G u;
      '(start_x, start_y) ← coords_first line;
      let dist_start := ((u_x - start_x) ^ 2 + (u_y - start_y) ^ 2)%Q in
      '(end_x, end_y) ← coords_last line;
      let dist_end := ((u_x - end_x) ^ 2 + (u_y - end_y) ^ 2)%Q in
      let line := if Qltb dist_end dist_start then rev line else line in
      let dist_along := project line point_coords in
      let new_node_id := new_node_id_of (str_hash u v key now) in
      let new_point := interpolate line dist_along in
      let G := add_node G new_node_id new_point in
      let geom_u_new := substring line 0 dist_along in
      let geom_new_v := substring line dist_along (line_length line) in
      '(ux, uy) ← node_xy G u;
      let len_1 :=
        haversine_distance uy ux (snd new_point) (fst new_point) in
      let attr1 :=
        mkEdgeData (Some len_1) (Some geom_u_new) (attr_state data)
                   (attr_travel_cost data) (attr_other data) in
      let G := add_edge G u new_node_id 0 attr1 in
      '(vx, vy) ← node_xy G v;
      let len_2 :=
        haversine_distance (snd new_point) (fst new_point) vy vx in
      let attr2 :=
        mkEdgeData (Some len_2) (Some geom_new_v) (attr_state data)
                   (attr_travel_cost data) (attr_other data) in
      let G := add_edge G new_node_id v 0 attr2 in
      let G := remove_edge G u v key in
      Ok (Some new_node_id, G)
  end.

(** The merge of [node] into [existing] inside [deduplicate_nodes]:
    [max] and [+=] raise [TypeError] on [None]. *)
Definition merge_into (existing node : NodeData) : result NodeData :=
  match nd_urgency existing with
  | None => Raise TypeError
  | Some eu =>
      let urgency := Z.max eu (default 0 (nd_urgency node)) in
      match nd_count existing, nd_count node with
      | Some ec, Some nc =>
          Ok (mkNodeData (nd_id existing) (nd_x existing) (nd_y existing)
                         (nd_type existing) (Some urgency) (Some (ec + nc)))
      | _, _ => Raise TypeError
      end
  end.

(** [dist < 10.0] between [node] and [existing]. *)
Definition within_tolerance (node existing : NodeData) : bool :=
  Qltb (haversine_distance (nd_y node) (nd_x node)
                           (nd_y existing) (nd_x existing)) 10.

(** The kept point a node is merged into: the first one, in the order of
    [unique_nodes], within the tolerance. *)
Definition merge_target (node : NodeData) (unique_nodes : list NodeData)
    : option NodeData :=
  find (within_tolerance node) unique_nodes.

(** The inner [for existing in unique_nodes] loop; [None] when it ends
    with [is_duplicate] false, else the list with the merge applied. *)
Fixpoint find_duplicate (node : NodeData) (unique_nodes : list NodeData)
    : result (option (list NodeData)) :=
  match unique_nodes with
  | [] => Ok None
  | existing :: rest =>
      let dist := haversine_distance (nd_y node) (nd_x node)
                                     (nd_y existing) (nd_x existing) in
      if Qltb dist 10 then
        merged ← merge_into existing node;
        Ok (Some (merged :: rest))
      else
        r ← find_duplicate node rest;
        Ok (option_map (cons existing) r)
  end.

(** Body of the outer [for node in nodes] loop. *)
Definition dedup_step (unique_nodes : list NodeData) (node : NodeData)
    : result (list NodeData) :=
  r ← find_duplicate node unique_nodes;
  Ok (match r with
      | Some merged => merged
      | None => unique_nodes ++ [node]
      end).

Definition deduplicate_nodes (nodes : list NodeData)
    : result (list NodeData) :=
  rfoldi (fun unique_nodes _ node => dedup_step unique_nodes node)
         0 nodes [].

(** State of the loop of [integrate_nodes_into_graph]: the graph, the
    mappings recorded so far and the number of clock readings taken. *)
Record IntState : Type := mkIntState {
  is_graph : Graph;
  is_snapped : list Snapped;
  is_ticks : nat
}.

Definition first_key_data (G : Graph) (u v : Z) : option EdgeData :=
  match keys_between G u v with
  | [] => None
  | k :: _ => get_edge_data (edges G) (u, v, k)
  end.

(** [G.get_edge_data(u, v, key) or G.get_edge_data(v, u, key)] followed
    by the fallbacks, down to [state]. *)
Definition edge_state (G : Graph) (u v key : Z) : string :=
  let truthy (o : option EdgeData) :=
    match o with
    | Some d => if dict_nonempty d then Some d else None
    | None => None
    end in
  let edge_data :=
    match truthy (get_edge_data (edges G) (u, v, key)) with
    | Some d => Some d
    | None => truthy (get_edge_data (edges G) (v, u, key))
    end in
  let edge_data :=
    match edge_data with
    | Some d => Some d
    | None =>
        if has_edge G u v then first_key_data G u v
        else if has_edge G v u then first_key_data G v u
        else None
    end in
  match edge_data with
  | Some d => default "clear"%string (attr_state d)
  | None => "clear"%string
  end.

Definition integrate_step (st : IntState) (node_req : NodeData)
    : result IntState :=
  let G := is_graph st in
  let '(u, v, key) := nearest_edges (nd_x node_req) (nd_y node_req) in
  let state := edge_state G u v key in
  '(u_x, u_y) ← node_xy G u;
  '(v_x, v_y) ← node_xy G v;
  let dist_u := haversine_distance (nd_y node_req) (nd_x node_req) u_y u_x in
  let dist_v := haversine_distance (nd_y node_req) (nd_x node_req) v_y v_x in
  let record G' id ticks :=
    mkIntState G' (is_snapped st ++ [mkSnapped id node_req]) ticks in
  if Qltb dist_u 50 then Ok (record G u (is_ticks st))
  else if Qltb dist_v 50 then Ok (record G v (is_ticks st))
  else if String.eqb state "blocked" then
    Ok (record G (if Qltb dist_u dist_v then u else v) (is_ticks st))
  else
    let pt := (nd_x node_req, nd_y node_req) in
    '(new_id, G1) ← split_edge_at_point (time (is_ticks st)) G u v key pt;
    let ticks1 :=
      match new_id with
      | Some _ => S (is_ticks st)
      | None => is_ticks st
      end in
    '(G2, ticks2) ←
      (if has_edge G1 v u then
         match keys_between G1 v u with
         | [] => Ok (G1, ticks1)
         | rk :: _ =>
             '(rev_id, G2) ←
               split_edge_at_point (time ticks1) G1 v u rk pt;
             Ok (G2, match rev_id with
                     | Some _ => S ticks1
                     | None => ticks1
                     end)
         end
       else Ok (G1, ticks1));
    let final_node_id :=
      match new_id with
      | Some id => if decide (id = 0) then u else id
      | None => u
      end in
    Ok (record G2 final_node_id ticks2).

Definition integrate_from (st : IntState) (nodes : list NodeData)
    : result IntState :=
  rfoldi (fun st _ node_req => integrate_step st node_req) 0 nodes st.

Definition integrate_nodes_into_graph (G : Graph) (nodes : list NodeData)
    : result (Graph * list Snapped) :=
  st ← integrate_from (mkIntState G [] 0) nodes;
  Ok (is_graph st, is_snapped st).

End Geometry.

End Utils.

(** ** SHA-1 ([hashlib.sha1], FIPS 180-4) on byte lists

    [make_bbox_key] hashes with the standard library's SHA-1; the digest
    is computed here as the standard defines it, bytes and 32-bit words
    being integers with the wrap-around written out. *)

Module SHA1.

Definition w32 (x : Z) : Z := x mod 2 ^ 32.

Definition rotl (n x : Z) : Z :=
  w32 (Z.lor (Z.shiftl x n) (Z.shiftr x (32 - n))).

Definition be32 (b0 b1 b2 b3 : Z) : Z :=
  ((b0 * 256 + b1) * 256 + b2) * 256 + b3.

(** Big-endian bytes of the 64-bit bit count. *)
Definition be64_bytes (n : Z) : list Z :=
  map (fun i => Z.shiftr n (8 * i) mod 256) [7; 6; 5; 4; 3; 2; 1; 0].

Definition pad (msg : list Z) : list Z :=
  let len := Z.of_nat (length msg) in
  msg ++ [128] ++ repeat 0 (Z.to_nat ((55 - len) mod 64))
      ++ be64_bytes (8 * len).

Fixpoint words (bytes : list Z) : list Z :=
  match bytes with
  | b0 :: b1 :: b2 :: b3 :: rest => be32 b0 b1 b2 b3 :: words rest
  | _ => []
  end.

Definition State : Type := Z * Z * Z * Z * Z.

Definition init : State :=
  (0x67452301, 0xEFCDAB89, 0x98BADCFE, 0x10325476, 0xC3D2E1F0).

Definition f_k (t : nat) (b c d : Z) : Z * Z :=
  if (t <? 20)%nat then
    (Z.lor (Z.land b c) (Z.land (Z.lxor b 0xFFFFFFFF) d), 0x5A827999)
  else if (t <? 40)%nat then
    (Z.lxor (Z.lxor b c) d, 0x6ED9EBA1)
  else if (t <? 60)%nat then
    (Z.lor (Z.lor (Z.land b c) (Z.land b d)) (Z.land c d), 0x8F1BBCDC)
  else
    (Z.lxor (Z.lxor b c) d, 0xCA62C1D6).

(** Rounds [t .. t + n - 1]; [window] holds the schedule words
    [W t .. W (t + 15)]. *)
Fixpoint rounds (n t : nat) (window : list Z) (st : State) : State :=
  match n with
  | O => st
  | S n' =>
      let '(a, b, c, d, e) := st in
      let w := nth 0 window 0 in
      let '(f, k) := f_k t b c d in
      let temp := w32 (rotl 5 a + f + e + k + w) in
      let next :=
        rotl 1 (Z.lxor (Z.lxor (Z.lxor (nth 13 window 0) (nth 8 window 0))
                               (nth 2 window 0)) w) in
      rounds n' (S t) (tail window ++ [next]) (temp, a, rotl 30 b, c, d)
  end.

Definition compress (st : State) (block : list Z) : State :=
  let '(h0, h1, h2, h3, h4) := st in
  let '(a, b, c, d, e) := rounds 80 0 block st in
  (w32 (h0 + a), w32 (h1 + b), w32 (h2 + c), w32 (h3 + d), w32 (h4 + e)).

(** The 16-word blocks of the padded message, one per unit of [n]. *)
Fixpoint process (n : nat) (ws : list Z) (st : State) : State :=
  match n with
  | O => st
  | S n' => process n' (drop 16 ws) (compress st (take 16 ws))
  end.

Definition digest (msg : list Z) : State :=
  let ws := words (pad msg) in
  process (length ws / 16) ws init.

Definition hex_digit (n : Z) : ascii :=
  nth (Z.to_nat (n mod 16)) (list_ascii_of_string "0123456789abcdef")
      "0"%char.

Definition hex8 (w : Z) : list ascii :=
  map (fun i => hex_digit (Z.shiftr w (4 * i))) [7; 6; 5; 4; 3; 2; 1; 0].

Definition hexdigest (msg : list Z) : string :=
  let '(h0, h1, h2, h3, h4) := digest msg in
  string_of_list_ascii
    (hex8 h0 ++ hex8 h1 ++ hex8 h2 ++ hex8 h3 ++ hex8 h4).

(** [str.encode()] on text made of one-byte characters. *)
Definition encode (s : string) : list Z :=
  map (fun c => Z.of_nat (nat_of_ascii c)) (list_ascii_of_string s).

Definition is_hex (c : ascii) : bool :=
  existsb (Ascii.eqb c) (list_ascii_of_string "0123456789abcdef").

End SHA1.

(** ** Bounding-box cache ([app/cache.py]) *)

Module Cache.

Definition ACCESS_TTL_SECONDS : Z := 24 * 3600.
Definition DOWNLOAD_TTL_SECONDS : Z := 7 * 24 * 3600.
Definition ROUND : Z := 5.

(** Nearest integer, ties to the even one. *)
Definition round_half_even (q : Q) : Z :=
  let f := Qfloor q in
  match ((q - inject_Z f) ?= 1 # 2)%Q with
  | Lt => f
  | Gt => f + 1
  | Eq => if Z.even f then f else f + 1
  end.

(** The builtin [round(x, ndigits)] for [ndigits >= 0]. *)
Definition py_round (x : Q) (ndigits : Z) : Q :=
  let scale := 10 ^ ndigits in
  Qmake (round_half_even (x * inject_Z scale)) (Z.to_pos scale).

Definition normalize_bbox (north south east west : Q) : Q * Q * Q * Q :=
  (py_round north ROUND, py_round south ROUND,
   py_round east ROUND, py_round west ROUND).

(** One row of the table [graph_cache]; the pickled graph is the graph. *)
Record Row : Type := mkRow {
  graph_blob : Utils.Graph;
  download_time : Q;
  last_access : Q
}.

(** The table, by its primary key [cache_key]. *)
Abbreviation Table := (gmap string Row).

Section Store.

(** [str] of a float, as the f-string of [make_bbox_key] formats it. *)
Variable float_str : Q -> string.

Definition make_bbox_key (north south east west : Q) : string :=
  let '(n, s, e, w) := normalize_bbox north south east west in
  let raw :=
    (float_str n ++ "," ++ float_str s ++ "," ++ float_str e ++ ","
               ++ float_str w)%string in
  SHA1.hexdigest (SHA1.encode raw).

(** [load_from_cache]; [now] is the reading of [time()]. *)
Definition load_from_cache (now : Q) (db : Table) (cache_key : string)
    : option Utils.Graph * Table :=
  match db !! cache_key with
  | None => (None, db)
  | Some row =>
      (Some (graph_blob row),
       <[cache_key := mkRow (graph_blob row) (download_time row) now]> db)
  end.

Definition save_to_cache (current_time : Q) (db : Table)
    (cache_key : string) (G : Utils.Graph) : Table :=
  <[cache_key := mkRow G current_time current_time]> db.

(** The [WHERE] clause of the [DELETE] in [cleanup_cache]. *)
Definition stale (access_cutoff download_cutoff : Q) (row : Row) : bool :=
  Qltb (last_access row) access_cutoff
  || Qltb (download_time row) download_cutoff.

Definition cleanup_cache (current_time : Q) (db : Table) : Table :=
  let access_cutoff :=
    (current_time - inject_Z ACCESS_TTL_SECONDS)%Q in
  let download_cutoff :=
    (current_time - inject_Z DOWNLOAD_TTL_SECONDS)%Q in
  filter (fun kv : string * Row =>
            stale access_cutoff download_cutoff (snd kv) = false)
         db.

(** [download_graph_bbox]; a failed download is [NetworkXError]. *)
Variable download_graph_bbox : Q -> Q -> Q -> Q -> result Utils.Graph.
(** [time()] at its n-th call. *)
Variable time : nat -> Q.

Definition get_graph (db : Table) (north south east west : Q)
    : result (Utils.Graph * Table) :=
  let cache_key := make_bbox_key north south east west in
  match load_from_cache (time 0) db cache_key with
  | (Some cached, db') => Ok (cached, db')
  | (None, db') =>
      G ← download_graph_bbox north south east west;
      let db'' := save_to_cache (time 0) db' cache_key G in
      Ok (G, cleanup_cache (time 1) db'')
  end.

End Store.

End Cache.

(** ** Routing preparation in [infer_routes] ([app/main.py]) *)

Module Main.

Import Utils.

(** [d.get('length', 1)]. *)
Definition edge_length (d : EdgeData) : Q := default 1%Q (attr_length d).

(** [10000 if state == 'blocked' else (5 if state == 'partial' else 1)]
    on [d.get('state', 'clear')]. *)
Definition state_multiplier (d : EdgeData) : Q :=
  let state := default "clear"%string (attr_state d) in
  if String.eqb state "blocked" then 10000%Q
  else if String.eqb state "partial" then 5%Q
  else 1%Q.

Definition set_travel_cost (c : Q) (d : EdgeData) : EdgeData :=
  mkEdgeData (attr_length d) (attr_geometry d) (attr_state d) (Some c)
             (attr_other d).

(** The loop over [G_routing.edges(keys=True, data=True)] used when the
    model is absent and as the fallback of the [except] branch. *)
Definition standard_weights (G : Graph) : Graph :=
  fold_left
    (fun G' key =>
       update_edge key
         (fun d => set_travel_cost (edge_length d * state_multiplier d)%Q d)
         G')
    (map fst (edges G)) G.

(** [neural_discount = 1.0 - (prob * 0.8)]. *)
Definition neural_discount (prob : Q) : Q := (1 - prob * (8 # 10))%Q.

(** The loop over [enumerate(ordered_edges)], from index [i] on; the
    boolean is false when [probs[i]] raised, the graph being the one
    mutated so far. *)
Fixpoint neural_weights (ordered_edges : list EdgeKey) (probs : list Q)
    (i : nat) (G : Graph) : Graph * bool :=
  match ordered_edges with
  | [] => (G, true)
  | key :: rest =>
      match probs !! i with
      | None => (G, false)
      | Some prob =>
          neural_weights rest probs (S i)
            (update_edge key
               (fun d =>
                  set_travel_cost
                    (edge_length d * state_multiplier d
                     * neural_discount prob)%Q d)
               G)
      end
  end.

(** [rescunet_model] is [None] or the predictor: [extract_pyg_data], the
    forward pass and the sigmoid, giving one probability per edge of
    [ordered_edges], or [None] when any of them raises. *)
Definition assign_travel_costs
    (rescunet_model : option (Graph -> option (list Q))) (G : Graph)
    : Graph :=
  match rescunet_model with
  | Some predict =>
      match predict G with
      | Some probs =>
          let ordered_edges := map fst (edges G) in
          match neural_weights ordered_edges probs 0 G with
          | (G', true) => G'
          | (G', false) => standard_weights G'
          end
      | None => standard_weights G
      end
  | None => standard_weights G
  end.

(** The discount the cost formula speaks of, for the edge at position [i]
    of the edge list: [1 - 0.8 * p] when the model is loaded, its call
    succeeded and delivered a probability for every edge, [p] being the
    one of this edge; [1] otherwise. *)
Definition discount_of (rescunet_model : option (Graph -> option (list Q)))
    (G : Graph) (i : nat) : Q :=
  match rescunet_model with
  | Some predict =>
      match predict G with
      | Some probs =>
          if decide (length (edges G) <= length probs)%nat then
            match probs !! i with
            | Some p => (1 - (8 # 10) * p)%Q
            | None => 1%Q
            end
          else 1%Q
      | None => 1%Q
      end
  | None => 1%Q
  end.

(** The edge list after the loop over [enumerate(ordered_edges)] has run
    through it from index [i]. *)
Fixpoint discounted (probs : list Q) (i : nat)
    (es : list (EdgeKey * EdgeData)) : list (EdgeKey * EdgeData) :=
  match es with
  | [] => []
  | e :: rest =>
      match probs !! i with
      | Some p =>
          (fst e,
           set_travel_cost
             (edge_length (snd e) * state_multiplier (snd e)
              * neural_discount p)%Q (snd e))
      | None => e
      end :: discounted probs (S i) rest
  end.

(** [pickups_ids] and the guard that follows it. *)
Definition pickups_ids_of (snapped_data : list Snapped) : list Z :=
  omap (fun item =>
          match nd_type (req item) with
          | PICKUP => Some (graph_id item)
          | SURVIVOR => None
          end)
       snapped_data.

Definition require_pickups (snapped_data : list Snapped)
    : result (list Z) :=
  match pickups_ids_of snapped_data with
  | [] => Raise (HTTPException 400)
  | pickups_ids => Ok pickups_ids
  end.

(** [survivors_map]: one entry per graph node, in insertion order, with
    the maximal urgency and the summed count. *)
Fixpoint aggregate (survivors_map : list Snapped) (item : Snapped)
    : result (list Snapped) :=
  match survivors_map with
  | [] => Ok [item]
  | entry :: rest =>
      if decide (graph_id entry = graph_id item) then
        match nd_urgency (req entry), nd_urgency (req item),
              nd_count (req entry), nd_count (req item) with
        | Some eu, Some urg, Some ec, Some cnt =>
            let r := req entry in
            Ok (mkSnapped (graph_id entry)
                  (mkNodeData (nd_id r) (nd_x r) (nd_y r) (nd_type r)
                              (Some (Z.max eu urg)) (Some (ec + cnt)))
                :: rest)
        | _, _, _, _ => Raise TypeError
        end
      else
        rest' ← aggregate rest item;
        Ok (entry :: rest')
  end.

Definition survivors_of (snapped_data : list Snapped)
    : result (list Snapped) :=
  rfoldi (fun survivors_map _ item =>
            match nd_type (req item) with
            | SURVIVOR => aggregate survivors_map item
            | PICKUP => Ok survivors_map
            end)
         0 snapped_data [].

Section Dispatch.

Variable shortest_path_length : Z -> Z -> option Q.
Variable shortest_path : Z -> Z -> list Z.

(** From [pickups_ids] to the call of the Python solver. *)
Definition route (snapped_data : list Snapped)
    : option (result (list (list Z))) :=
  match require_pickups snapped_data with
  | Raise e => Some (Raise e)
  | Ok pickups_ids =>
      match survivors_of snapped_data with
      | Raise e => Some (Raise e)
      | Ok survivors_data =>
          Router.solve_routes shortest_path_length shortest_path
                              survivors_data pickups_ids
      end
  end.

End Dispatch.

End Main.

(** ** Concrete data for the scenarios *)

Module Scenario.

Definition survivor_at (node urgency count : Z) : Snapped :=
  mkSnapped node
    (mkNodeData node 0%Q 0%Q SURVIVOR (Some urgency) (Some count)).

Definition pickup_at (node : Z) : Snapped :=
  mkSnapped node (mkNodeData node 0%Q 0%Q PICKUP None None).

(** A star: the pickup node 1 is joined to nodes 2 and 3 by roads of
    travel cost 100; every other node (node 9, say) is cut off. *)
Definition on_star (a : Z) : bool := (a =? 1) || (a =? 2) || (a =? 3).

Definition star_length (a b : Z) : option Q :=
  if a =? b then Some 0%Q
  else if on_star a && on_star b then
    if (a =? 1) || (b =? 1) then Some 100%Q else Some 200%Q
  else None.

Definition star_path (a b : Z) : list Z :=
  if a =? b then [a]
  else if (a =? 1) || (b =? 1) then [a; b]
  else [a; 1; b].

(** Great-circle distance between two points of one meridian, in metres:
    111195 m per degree of latitude (6371000 * pi / 180). *)
Definition meridian_distance (lat1 lon1 lat2 lon2 : Q) : Q :=
  (Qabs (lat2 - lat1) * 111195)%Q.

(** A request at [metres] north of the origin, on the meridian 0. *)
Definition request (id : Z) (metres : Z) (type : NodeType)
    (urgency count : option Z) : NodeData :=
  mkNodeData id 0%Q (metres # 111195)%Q type urgency count.

(** Geometry of a straight west-east street, standing in for shapely:
    positions along the line are differences of [x]. *)
Definition street_start (line : Utils.LineString) : Q * Q :=
  match line with
  | c :: _ => c
  | [] => (0%Q, 0%Q)
  end.

Definition street_project (line : Utils.LineString) (p : Q * Q) : Q :=
  (fst p - fst (street_start line))%Q.

Definition street_interpolate (line : Utils.LineString) (d : Q) : Q * Q :=
  ((fst (street_start line) + d)%Q, snd (street_start line)).

Definition street_substring (line : Utils.LineString) (a b : Q)
    : Utils.LineString :=
  [street_interpolate line a; street_interpolate line b].

Definition street_length (line : Utils.LineString) : Q :=
  match last line with
  | Some c => (fst c - fst (street_start line))%Q
  | None => 0%Q
  end.

(** Distance between two points of one parallel near the equator, in
    metres: 111195 m per degree. *)
Definition street_distance (lat1 lon1 lat2 lon2 : Q) : Q :=
  (Qabs (lon2 - lon1) * 111195)%Q.

(** A street from node 1 at the origin to node 2, 200 m to the east, with
    one edge in each direction. *)
Definition street_edge : Utils.EdgeData :=
  Utils.mkEdgeData (Some 200%Q) None None None true.

Definition street : Utils.Graph :=
  Utils.mkGraph
    (<[1 := (0%Q, 0%Q)]> (<[2 := ((200 # 111195)%Q, 0%Q)]> ∅))
    [((1, 2, 0), street_edge); ((2, 1, 0), street_edge)].

(** A request [metres] east of node 1, on the street. *)
Definition on_street (id : Z) (metres : Z) (type : NodeType)
    (urgency count : option Z) : NodeData :=
  mkNodeData id (metres # 111195)%Q 0%Q type urgency count.

(** The string hash at one clock reading: under CPython 3.11 with
    [PYTHONHASHSEED=0], [hash("1-2-0-1780649692.5")] is
    [8024500227580000000]; elsewhere a stand-in value. *)
Definition hash_at (u v key : Z) (t : Q) : Z :=
  if (u =? 1) && (v =? 2) && (key =? 0)
     && Qeq_bool t (17806496925 # 10)
  then 8024500227580000000
  else 1234567.

(** The clock: [time()] reads 1780649692.5, then a second later. *)
Definition clock (n : nat) : Q :=
  ((17806496925 # 10) + inject_Z (Z.of_nat n))%Q.

(** The nearest edge of the street is its eastbound edge. *)
Definition nearest_on_street (x y : Q) : Z * Z * Z := (1, 2, 0).

(** [str] of a float that is a multiple of 0.00001 and either zero or at
    least 0.0001 in size, where Python prints plain decimals: the sign, the
    integer part, a point and the decimals without trailing zeros (one
    decimal at least). *)
Definition digit_of (n : Z) : ascii :=
  ascii_of_nat (48 + Z.to_nat (n mod 10)).

Fixpoint digits (fuel : nat) (n : Z) (acc : list ascii) : list ascii :=
  match fuel with
  | O => acc
  | S fuel' =>
      if n <? 10 then digit_of n :: acc
      else digits fuel' (n / 10) (digit_of n :: acc)
  end.

Fixpoint strip_zeros (rev_digits : list ascii) : list ascii :=
  match rev_digits with
  | c :: rest => if Ascii.eqb c "0" then strip_zeros rest else rev_digits
  | [] => []
  end.

Definition decimal_str (q : Q) : string :=
  let k := Qnum q * 100000 / Zpos (Qden q) in
  let whole := Z.abs k / 100000 in
  let frac := Z.abs k mod 100000 in
  let decimals :=
    match rev (strip_zeros (rev (tail (digits 8 (100000 + frac) [])))) with
    | [] => ["0"%char]
    | ds => ds
    end in
  string_of_list_ascii
    ((if k <? 0 then ["-"%char] else [])
       ++ digits 32 whole [] ++ ["."%char] ++ decimals).

(** Two parallel edges from node 2 back to node 1 besides the edge from 1
    to 2. *)
Definition avenue : Utils.Graph :=
  Utils.mkGraph
    (<[1 := (0%Q, 0%Q)]> (<[2 := ((200 # 111195)%Q, 0%Q)]> ∅))
    [((1, 2, 0), street_edge); ((2, 1, 0), street_edge);
     ((2, 1, 1), street_edge)].

Definition block_1_2 : EdgeModification :=
  mkEdgeModification 1 2 0 "blocked".

Definition S1 : Snapped := survivor_at 2 5 1.
Definition S2 : Snapped := survivor_at 3 1 10.

End Scenario.

(** ** Measures used to state what the mutators keep *)

Module Measures.

(** What deduplication never changes in a kept point. *)
Definition place (n : NodeData) : Z * Q * Q * NodeType :=
  (nd_id n, nd_x n, nd_y n, nd_type n).

(** The people counted in a list of requests, a missing count being 0. *)
Definition total_count (l : list NodeData) : Z :=
  foldr (fun n acc => default 0 (nd_count n) + acc) 0 l.

(** No point of the list is within the tolerance of an earlier one, the
    distance being taken as [deduplicate_nodes] takes it: from the later
    point to the earlier. *)
Fixpoint well_separated (haversine_distance : Q -> Q -> Q -> Q -> Q)
    (l : list NodeData) : Prop :=
  match l with
  | [] => True
  | existing :: rest =>
      Forall (fun later =>
                Utils.within_tolerance haversine_distance later existing
                = false) rest
      /\ well_separated haversine_distance rest
  end.

(** The people counted in the survivor entries of a list of mappings, a
    missing count being 0. *)
Definition survivors_count (l : list Snapped) : Z :=
  foldr (fun item acc =>
           match nd_type (req item) with
           | SURVIVOR => default 0 (nd_count (req item)) + acc
           | PICKUP => acc
           end) 0 l.

(** The graph nodes of the survivor entries. *)
Definition survivor_nodes (l : list Snapped) : list Z :=
  omap (fun item =>
          match nd_type (req item) with
          | SURVIVOR => Some (graph_id item)
          | PICKUP => None
          end) l.

(** The people counted in the entries of [survivors_map], whatever their
    kind. *)
Abbreviation entries_count :=
  (foldr (fun (item : Snapped) acc =>
            default 0 (nd_count (req item)) + acc) 0).

(** A survivor entry the solver can score whatever its urgency: urgency
    and count are present and the count is positive. *)
Definition has_people (item : Snapped) : Prop :=
  exists u c, nd_urgency (req item) = Some u
              /\ nd_count (req item) = Some c /\ 0 < c.

(** An edge that a modification names, in either direction. *)
Definition touches (m : EdgeModification) (key : Z * Z * Z) : Prop :=
  key = (em_u m, em_v m, em_key m)
  \/ exists k', key = (em_v m, em_u m, k').

End Measures.

(** ** Text triage helpers ([app/main.py]) *)

Module Text.

(** [tokenize_text] after [clean_text(text).split()], whose result is
    [words]: words to vocabulary indices, then padding or truncation to
    [max_len]. *)
Definition tokenize_words (words : list string) (vocab : gmap string Z)
    (max_len : Z) : list Z :=
  let unk := default 1 (vocab !! "<UNK>"%string) in
  let indices := map (fun word => default unk (vocab !! word)) words in
  if Z.of_nat (length indices) <? max_len then
    indices ++ repeat (default 0 (vocab !! "<PAD>"%string))
                      (Z.to_nat (max_len - Z.of_nat (length indices)))
  else if 0 <=? max_len then take (Z.to_nat max_len) indices
  else take (length indices - Z.to_nat (- max_len)) indices.

(** The triage of [analyze_text] from the probability of the class
    "real disaster": the prediction and the priority. *)
Definition CONFIDENCE_THRESHOLD : Q := 65 # 100.

Definition triage (confidence : Q) : string * string :=
  let is_real := Qltb CONFIDENCE_THRESHOLD confidence in
  if is_real then
    ("REAL DISASTER",
     if Qltb (85 # 100) confidence
     then "HIGH - Immediate attention required"
     else if Qltb (70 # 100) confidence
          then "MEDIUM - Review within 1 hour"
          else "LOW - Review when possible")%string
  else ("FAKE/ABSURD", "IGNORE - Not a real disaster")%string.

(** The priorities in their order of urgency. *)
Definition priority_rank (priority : string) : nat :=
  if String.eqb priority "HIGH - Immediate attention required" then 3
  else if String.eqb priority "MEDIUM - Review within 1 hour" then 2
  else if String.eqb priority "LOW - Review when possible" then 1
  else 0.

End Text.

(** * Properties *)

Lemma Qltb_lt a b : Qltb a b = true <-> (a < b)%Q.
Proof.
  unfold Qltb. rewrite negb_true_iff.
  split.
  - intros H. apply Qnot_le_lt. intros Hle.
    apply Qle_bool_iff in Hle. congruence.
  - intros H. destruct (Qle_bool b a) eqn:E; [|reflexivity].
    apply Qle_bool_iff in E. exfalso. exact (Qlt_not_le _ _ H E).
Qed.

Lemma Qltb_ge a b : Qltb a b = false <-> (b <= a)%Q.
Proof.
  unfold Qltb. rewrite negb_false_iff. apply Qle_bool_iff.
Qed.

(** Invariant rule for [rfoldi]: a property of the index and the state
    that every successful iteration carries over holds at the end. *)
Lemma rfoldi_invariant {A St : Type} (f : St -> nat -> A -> result St)
    (P : nat -> St -> Prop) (l : list A) :
  forall (i : nat) (s s' : St),
    rfoldi f i l s = Ok s' ->
    P i s ->
    (forall j a t t', l !! j = Some a -> P (i + j)%nat t ->
                      f t (i + j)%nat a = Ok t' -> P (S (i + j)) t') ->
    P (i + length l)%nat s'.
Proof.
  induction l as [|a l IH]; intros i s s' Hrun Hi Hstep; simpl in *.
  - replace (i + 0)%nat with i by lia. congruence.
  - destruct (f s i a) as [s1|e] eqn:Hf; simpl in Hrun; [|discriminate].
    replace (i + S (length l))%nat with (S i + length l)%nat by lia.
    apply (IH (S i) s1 s' Hrun).
    + specialize (Hstep 0%nat a s s1 eq_refl).
      replace (i + 0)%nat with i in Hstep by lia. auto.
    + intros j b t t' Hb Ht Hft.
      specialize (Hstep (S j) b t t' Hb).
      replace (i + S j)%nat with (S i + j)%nat in Hstep by lia. auto.
Qed.

Lemma rfoldi_app {A St : Type} (f : St -> nat -> A -> result St)
    (l1 l2 : list A) :
  forall (i : nat) (s : St),
    rfoldi f i (l1 ++ l2) s
    = (s1 ← rfoldi f i l1 s; rfoldi f (i + length l1) l2 s1).
Proof.
  induction l1 as [|a l1 IH]; intros i s; simpl.
  - replace (i + 0)%nat with i by lia. reflexivity.
  - destruct (f s i a) as [s1|e]; simpl; [|reflexivity].
    rewrite IH. replace (S i + length l1)%nat with (i + S (length l1))%nat by lia.
    reflexivity.
Qed.

Lemma rfoldi_raise {A St : Type} (f : St -> nat -> A -> result St)
    (l : list A) :
  forall (i : nat) (s : St) (e : exn),
    rfoldi f i l s = Raise e ->
    exists j a t, l !! j = Some a /\ f t (i + j)%nat a = Raise e.
Proof.
  induction l as [|a l IH]; intros i s e Hrun; simpl in *; [discriminate|].
  destruct (f s i a) as [s1|e1] eqn:Hf; simpl in Hrun.
  - destruct (IH _ _ _ Hrun) as (j & b & t & Hb & Hfb).
    exists (S j), b, t. split; [exact Hb|].
    replace (i + S j)%nat with (S i + j)%nat by lia. exact Hfb.
  - injection Hrun as <-. exists 0%nat, a, s. split; [reflexivity|].
    replace (i + 0)%nat with i by lia. exact Hf.
Qed.

Lemma rfoldi_unchanged {A St : Type} (f : St -> nat -> A -> result St)
    (l : list A) (s : St) :
  forall i : nat,
    (forall j a, l !! j = Some a -> f s (i + j)%nat a = Ok s) ->
    rfoldi f i l s = Ok s.
Proof.
  induction l as [|a l IH]; intros i Hf; simpl; [reflexivity|].
  pose proof (Hf 0%nat a eq_refl) as H0.
  replace (i + 0)%nat with i in H0 by lia. rewrite H0. simpl.
  apply IH. intros j b Hb. specialize (Hf (S j) b Hb).
  replace (i + S j)%nat with (S i + j)%nat in Hf by lia. exact Hf.
Qed.

Module RouterFacts.

Import Router.

Section Facts.

Variable shortest_path_length : Z -> Z -> option Q.
Variable shortest_path : Z -> Z -> list Z.

Local Abbreviation candidate := (candidate shortest_path_length).
Local Abbreviation consider := (consider shortest_path_length).
Local Abbreviation select_best := (select_best shortest_path_length).
Local Abbreviation best_of := (best_of shortest_path_length).

Lemma best_of_shrink vec rem (seen seen' : nat -> nat -> Prop) best :
  best_of vec rem seen best ->
  (forall vi si sc d, seen' vi si -> candidate vec rem vi si sc d ->
                      seen vi si) ->
  best_of vec rem seen' best.
Proof.
  intros Hb Hsub. destruct best as [b|]; simpl in *.
  - destruct Hb as [Hc Hmin]. split; [exact Hc|]. eauto.
  - intros vi si sc d Hs Hc. eapply Hb; eauto.
Qed.

Lemma candidate_at vec rem vi si sc d vehicle survivor :
  vec !! vi = Some vehicle -> rem !! si = Some survivor ->
  candidate vec rem vi si sc d ->
  current_node vehicle <> graph_id survivor
  /\ shortest_path_length (current_node vehicle) (graph_id survivor)
     = Some d
  /\ score vehicle survivor d = Ok sc.
Proof.
  intros Hv Hs (v' & s' & Hv' & Hs' & Hne & Hd & Hsc).
  rewrite Hv in Hv'. rewrite Hs in Hs'.
  injection Hv' as <-. injection Hs' as <-. auto.
Qed.

Lemma consider_best_of vec rem seen best best' v_idx s_idx vehicle survivor :
  vec !! v_idx = Some vehicle -> rem !! s_idx = Some survivor ->
  best_of vec rem seen best ->
  consider v_idx vehicle best s_idx survivor = Ok best' ->
  best_of vec rem
          (fun vi si => seen vi si \/ (vi = v_idx /\ si = s_idx)) best'.
Proof.
  intros Hv Hs Hb Hrun.
  assert (Hkeep :
    (forall sc d, ~ candidate vec rem v_idx s_idx sc d) ->
    best_of vec rem
      (fun vi si => seen vi si \/ (vi = v_idx /\ si = s_idx)) best).
  { intros Hno. eapply best_of_shrink; [exact Hb|].
    intros vi si sc d [Hseen|[-> ->]] Hc; [exact Hseen|].
    exfalso. exact (Hno _ _ Hc). }
  unfold consider, Router.consider in Hrun.
  destruct (decide (current_node vehicle = graph_id survivor)) as [Heq|Hne].
  { injection Hrun as <-. apply Hkeep. intros sc d Hc.
    destruct (candidate_at _ _ _ _ _ _ _ _ Hv Hs Hc) as [Hne _].
    contradiction. }
  destruct (shortest_path_length (current_node vehicle) (graph_id survivor))
    as [dist|] eqn:Hd.
  2:{ injection Hrun as <-. apply Hkeep. intros sc d Hc.
      destruct (candidate_at _ _ _ _ _ _ _ _ Hv Hs Hc) as (_ & Hd' & _).
      fold candidate in Hd'. congruence. }
  destruct (score vehicle survivor dist) as [sc|e] eqn:Hsc;
    simpl in Hrun; [|discriminate].
  injection Hrun as <-.
  assert (Hnew : candidate vec rem v_idx s_idx sc dist).
  { exists vehicle, survivor. auto. }
  assert (Hsame : forall sc' d', candidate vec rem v_idx s_idx sc' d' ->
                                 sc' = sc).
  { intros sc' d' Hc.
    destruct (candidate_at _ _ _ _ _ _ _ _ Hv Hs Hc) as (_ & Hd' & Hsc').
    rewrite Hd in Hd'. injection Hd' as <-. congruence. }
  destruct best as [b|]; simpl in *.
  - destruct Hb as [Hc Hmin].
    destruct (Qltb sc (best_global_score b)) eqn:Hlt; simpl.
    + apply Qltb_lt in Hlt. split; [exact Hnew|].
      intros vi si sc' d' [Hseen|[-> ->]] Hc'.
      * apply Qle_trans with (best_global_score b);
          [apply Qlt_le_weak; exact Hlt | eauto].
      * rewrite (Hsame _ _ Hc'). apply Qle_refl.
    + apply Qltb_ge in Hlt. split; [exact Hc|].
      intros vi si sc' d' [Hseen|[-> ->]] Hc'; [eauto|].
      rewrite (Hsame _ _ Hc'). exact Hlt.
  - split; [exact Hnew|].
    intros vi si sc' d' [Hseen|[-> ->]] Hc'.
    + exfalso. exact (Hb _ _ _ _ Hseen Hc').
    + rewrite (Hsame _ _ Hc'). apply Qle_refl.
Qed.

(** The inner loop, for the vehicle at index [v_idx]. *)
Lemma inner_best_of vec rem best best' v_idx vehicle :
  vec !! v_idx = Some vehicle ->
  best_of vec rem (fun vi _ => (vi < v_idx)%nat) best ->
  rfoldi (consider v_idx vehicle) 0 rem best = Ok best' ->
  best_of vec rem (fun vi _ => (vi < S v_idx)%nat) best'.
Proof.
  intros Hv Hb Hrun.
  pose (P := fun (j : nat) (bst : option Best) =>
               best_of vec rem
                 (fun vi si => (vi < v_idx)%nat
                               \/ (vi = v_idx /\ (si < j)%nat)) bst).
  assert (HP : P (0 + length rem)%nat best').
  { apply (rfoldi_invariant _ P rem 0%nat best best' Hrun).
    - unfold P. eapply best_of_shrink; [exact Hb|].
      intros vi si sc d [Hlt|[_ Hlt]] _; [exact Hlt|lia].
    - intros j a t t' Ha Ht Hstep. unfold P in *. simpl in *.
      eapply best_of_shrink;
        [exact (consider_best_of _ _ _ _ _ _ _ _ _ Hv Ha Ht Hstep)|].
      intros vi si sc d [Hlt|[-> Hlt]] _; [auto|].
      destruct (decide (si = j)) as [->|Hne]; [auto|].
      left. right. split; [reflexivity|lia]. }
  unfold P in HP. simpl in HP.
  eapply best_of_shrink; [exact HP|].
  intros vi si sc d Hlt (v' & s' & _ & Hs' & _).
  apply lookup_lt_Some in Hs'.
  destruct (decide (vi = v_idx)) as [->|Hne]; [auto|].
  left. lia.
Qed.

(** [select_best] returns a scored pair of minimal score, or [None]
    when no pair can be scored. *)
Lemma select_best_spec vec rem best :
  select_best vec rem = Ok best ->
  best_of vec rem (fun _ _ => True) best.
Proof.
  intros Hrun. unfold select_best, Router.select_best in Hrun.
  pose (P := fun (i : nat) (bst : option Best) =>
               best_of vec rem (fun vi _ => (vi < i)%nat) bst).
  assert (HP : P (0 + length vec)%nat best).
  { apply (rfoldi_invariant _ P vec 0%nat None best Hrun).
    - unfold P. simpl. intros vi si sc d Hlt. lia.
    - intros j a t t' Ha Ht Hstep. unfold P in *. simpl in *.
      exact (inner_best_of _ _ _ _ _ _ Ha Ht Hstep). }
  unfold P in HP. simpl in HP.
  eapply best_of_shrink; [exact HP|].
  intros vi si sc d _ (v' & s' & Hv' & _).
  apply lookup_lt_Some in Hv'. exact Hv'.
Qed.

(** The first round of the scenario: one vehicle at [P], survivors at
    [n1] (urgency 5, count 1) and [n2] (urgency 1, count 10), both at
    travel cost 100. *)
Lemma scenario_round P n1 n2 (r1 r2 : NodeData) :
  P <> n1 -> P <> n2 ->
  shortest_path_length P n1 = Some 100%Q ->
  shortest_path_length P n2 = Some 100%Q ->
  nd_urgency r1 = Some 5 -> nd_count r1 = Some 1 ->
  nd_urgency r2 = Some 1 -> nd_count r2 = Some 10 ->
  select_best (init_vehicles [P]) [mkSnapped n1 r1; mkSnapped n2 r2]
  = Ok (Some (mkBest ((0 + 100) / inject_Z 26)%Q 0 0 100%Q))
  /\ select_best (init_vehicles [P]) [mkSnapped n2 r2; mkSnapped n1 r1]
     = Ok (Some (mkBest ((0 + 100) / inject_Z 26)%Q 0 1 100%Q)).
Proof.
  intros HP1 HP2 Hd1 Hd2 Hu1 Hc1 Hu2 Hc2.
  unfold select_best, Router.select_best, init_vehicles. simpl.
  unfold Router.consider, score. simpl.
  rewrite Hu1, Hc1, Hu2, Hc2.
  destruct (decide (P = n1)) as [?|_]; [contradiction|].
  destruct (decide (P = n2)) as [?|_]; [contradiction|].
  rewrite Hd1, Hd2. simpl. split; reflexivity.
Qed.

Lemma assign_spec vec rem b vehicle survivor :
  vec !! best_vehicle_idx b = Some vehicle ->
  rem !! best_survivor_idx b = Some survivor ->
  exists path',
    assign shortest_path vec rem b
    = Ok (<[best_vehicle_idx b :=
              mkVehicle (v_id vehicle) (graph_id survivor) path'
                (total_distance vehicle + best_segment_dist b)%Q]> vec,
          delete (best_survivor_idx b) rem).
Proof.
  intros Hv Hs. unfold assign. rewrite Hv, Hs. eexists. reflexivity.
Qed.

Lemma score_raise vehicle survivor dist e :
  score vehicle survivor dist = Raise e ->
  (e = TypeError \/ e = ZeroDivisionError) /\ ~ scorable survivor.
Proof.
  unfold score, scorable. intros H.
  destruct (nd_urgency (req survivor)) as [u|] eqn:Hu;
    [destruct (nd_count (req survivor)) as [c|] eqn:Hc|].
  - destruct (decide (u ^ 2 + c = 0)) as [Hz|Hz]; [|discriminate].
    injection H as <-. split; [auto|].
    intros (u' & c' & Hu' & Hc' & Hne). congruence.
  - injection H as <-. split; [auto|].
    intros (u' & c' & Hu' & Hc' & Hne). congruence.
  - injection H as <-. split; [auto|].
    intros (u' & c' & Hu' & Hc' & Hne). congruence.
Qed.

Lemma consider_raise v_idx vehicle best s_idx survivor e :
  consider v_idx vehicle best s_idx survivor = Raise e ->
  (e = TypeError \/ e = ZeroDivisionError) /\ ~ scorable survivor.
Proof.
  unfold consider, Router.consider. intros H.
  destruct (decide (current_node vehicle = graph_id survivor));
    [discriminate|].
  destruct (shortest_path_length _ _) as [dist|]; [|discriminate].
  destruct (score vehicle survivor dist) as [sc|e'] eqn:Hsc;
    simpl in H; [discriminate|].
  injection H as <-. exact (score_raise _ _ _ _ Hsc).
Qed.

(** A round raises only while scoring a survivor that is not scorable. *)
Lemma select_best_raise vec rem e :
  select_best vec rem = Raise e ->
  (e = TypeError \/ e = ZeroDivisionError)
  /\ exists s, s ∈ rem /\ ~ scorable s.
Proof.
  intros H. unfold select_best, Router.select_best in H.
  apply rfoldi_raise in H as (j & vehicle & best & _ & H).
  apply rfoldi_raise in H as (k & survivor & best' & Hs & H).
  apply consider_raise in H as [He Hbad].
  split; [exact He|]. exists survivor. split; [|exact Hbad].
  eapply list_elem_of_lookup_2. exact Hs.
Qed.

Lemma select_best_assign vec rem b :
  select_best vec rem = Ok (Some b) ->
  exists vec', assign shortest_path vec rem b
               = Ok (vec', delete (best_survivor_idx b) rem)
               /\ is_Some (rem !! best_survivor_idx b).
Proof.
  intros Hsel.
  pose proof (select_best_spec _ _ _ Hsel) as [Hc _].
  destruct Hc as (vehicle & survivor & Hv & Hs & _).
  destruct (assign_spec _ _ _ _ _ Hv Hs) as [path' Ha].
  eexists. split; [exact Ha|]. rewrite Hs. eauto.
Qed.

(** The loop ends within [length remaining_survivors] rounds, and what
    it raises comes from scoring a survivor of the list. *)
Lemma assign_loop_total fuel :
  forall vec rem,
    (length rem <= fuel)%nat ->
    exists r,
      assign_loop shortest_path_length shortest_path fuel vec rem = Some r
      /\ (forall e, r = Raise e ->
            (e = TypeError \/ e = ZeroDivisionError)
            /\ exists s, s ∈ rem /\ ~ scorable s).
Proof.
  induction fuel as [|fuel IH]; intros vec rem Hlen.
  - destruct rem as [|s rem]; simpl in Hlen; [|lia].
    simpl. eexists. split; [reflexivity|]. intros e He. discriminate.
  - destruct rem as [|s0 rem0] eqn:Hrem.
    { simpl. eexists. split; [reflexivity|]. intros e He. discriminate. }
    rewrite <- Hrem in *. assert (Hne : rem <> []) by (subst; discriminate).
    assert (Hunf :
      assign_loop shortest_path_length shortest_path (S fuel) vec rem
      = match select_best vec rem with
        | Raise e => Some (Raise e)
        | Ok None => Some (Ok (vec, rem))
        | Ok (Some b) =>
            match assign shortest_path vec rem b with
            | Raise e => Some (Raise e)
            | Ok (vec', rem') =>
                assign_loop shortest_path_length shortest_path fuel vec' rem'
            end
        end).
    { rewrite Hrem. reflexivity. }
    rewrite Hunf. clear Hunf.
    destruct (select_best vec rem) as [[b|]|e] eqn:Hsel.
    + destruct (select_best_assign _ _ _ Hsel) as (vec' & Ha & Hsome).
      rewrite Ha.
      assert (Hlen' : (length (delete (best_survivor_idx b) rem) <= fuel)%nat).
      { rewrite length_delete by exact Hsome. lia. }
      destruct (IH vec' _ Hlen') as (r & Hr & Hraise).
      exists r. split; [exact Hr|].
      intros e He. destruct (Hraise e He) as (Hk & s & Hin & Hbad).
      split; [exact Hk|]. exists s. split; [|exact Hbad].
      exact (list_elem_of_delete_inv _ _ _ Hin).
    + eexists. split; [reflexivity|]. intros e He. discriminate.
    + eexists. split; [reflexivity|]. intros e' He. injection He as <-.
      exact (select_best_raise _ _ _ Hsel).
Qed.

Lemma consider_unreachable v_idx vehicle best s_idx survivor :
  shortest_path_length (current_node vehicle) (graph_id survivor) = None ->
  consider v_idx vehicle best s_idx survivor = Ok best.
Proof.
  intros H. unfold consider, Router.consider. rewrite H.
  destruct (decide _); reflexivity.
Qed.

Lemma select_best_unreachable vec rem :
  (forall vehicle s, vehicle ∈ vec -> s ∈ rem ->
     shortest_path_length (current_node vehicle) (graph_id s) = None) ->
  select_best vec rem = Ok None.
Proof.
  intros H. unfold select_best, Router.select_best.
  apply rfoldi_unchanged. intros j vehicle Hv.
  apply rfoldi_unchanged. intros k s Hs.
  apply consider_unreachable.
  apply H; eapply list_elem_of_lookup_2; eassumption.
Qed.

Lemma init_vehicles_elem vehicle pickups_ids :
  vehicle ∈ init_vehicles pickups_ids ->
  current_node vehicle ∈ pickups_ids /\ length (path vehicle) = 1%nat.
Proof.
  unfold init_vehicles. intros H.
  apply list_elem_of_lookup_1 in H as [i Hi].
  rewrite list_lookup_imap in Hi.
  destruct (pickups_ids !! i) as [pid|] eqn:Hp; simpl in Hi; [|discriminate].
  injection Hi as <-. simpl. split; [|reflexivity].
  eapply list_elem_of_lookup_2. exact Hp.
Qed.

Lemma finish_unused pickups_ids vec :
  (forall vehicle, vehicle ∈ vec -> length (path vehicle) = 1%nat) ->
  finish shortest_path_length shortest_path pickups_ids vec = [].
Proof.
  unfold finish. induction vec as [|v vec IH]; intros H; [reflexivity|].
  simpl. rewrite (H v) by (left).
  destruct (decide (1 <= 1)%nat) as [_|?]; [|lia].
  apply IH. intros v' Hv'. apply H. right. exact Hv'.
Qed.

(** With no pickup able to reach any survivor, the loop stops at its
    first round and every vehicle is unused. *)
Lemma solve_routes_unreachable survivors pickups_ids :
  (forall p s, p ∈ pickups_ids -> s ∈ survivors ->
     shortest_path_length p (graph_id s) = None) ->
  solve_routes shortest_path_length shortest_path survivors pickups_ids
  = Some (Ok []).
Proof.
  intros H. unfold solve_routes.
  assert (Hloop :
    assign_loop shortest_path_length shortest_path (length survivors)
                (init_vehicles pickups_ids) survivors
    = Some (Ok (init_vehicles pickups_ids, survivors))).
  { destruct survivors as [|s0 rest] eqn:Hs; [reflexivity|].
    rewrite <- Hs in *.
    assert (Hsel : select_best (init_vehicles pickups_ids) survivors = Ok None).
    { apply select_best_unreachable. intros vehicle s Hv Hin.
      apply H; [|exact Hin]. apply (init_vehicles_elem _ _ Hv). }
    rewrite Hs in *. simpl. fold select_best. rewrite Hsel. reflexivity. }
  rewrite Hloop. f_equal. f_equal.
  apply finish_unused. intros vehicle Hv.
  apply (init_vehicles_elem _ _ Hv).
Qed.

Lemma solve_routes_total survivors pickups_ids :
  exists r,
    solve_routes shortest_path_length shortest_path survivors pickups_ids
    = Some r
    /\ (forall e, r = Raise e ->
          (e = TypeError \/ e = ZeroDivisionError)
          /\ exists s, s ∈ survivors /\ ~ scorable s).
Proof.
  unfold solve_routes.
  destruct (assign_loop_total (length survivors)
              (init_vehicles pickups_ids) survivors (le_n _))
    as (r & Hr & Hraise).
  rewrite Hr. destruct r as [[vec rem]|e].
  - eexists. split; [reflexivity|]. intros e He. discriminate.
  - eexists. split; [reflexivity|]. intros e' He. injection He as <-.
    apply Hraise. reflexivity.
Qed.

End Facts.

(** C1, as the code has it: every round of the dispatch loop assigns a
    pair of minimal score
    [(total_distance + path_distance) / (urgency^2 + count)] among the
    reachable pairs whose vehicle is not already at the survivor's node:
    the winning vehicle moves to that survivor's node, its distance grows
    by the path distance and the survivor leaves the remaining list.  For
    one pickup [P] and survivors S1 (urgency 5, count 1) and S2 (urgency 1,
    count 10), both at travel cost 100 from [P], the first round assigns
    S1, whose score is 100/26, S2 scoring 100/11; this holds in either
    input order. *)
Theorem solve_routes_assigns_min_score
    (shortest_path_length : Z -> Z -> option Q)
    (shortest_path : Z -> Z -> list Z) :
  (forall vec rem b,
     select_best shortest_path_length vec rem = Ok (Some b) ->
     candidate shortest_path_length vec rem
       (best_vehicle_idx b) (best_survivor_idx b)
       (best_global_score b) (best_segment_dist b)
     /\ (forall vi si sc d,
           candidate shortest_path_length vec rem vi si sc d ->
           (best_global_score b <= sc)%Q)
     /\ exists vehicle survivor path',
          vec !! best_vehicle_idx b = Some vehicle
          /\ rem !! best_survivor_idx b = Some survivor
          /\ forall fuel,
               assign_loop shortest_path_length shortest_path (S fuel) vec rem
               = assign_loop shortest_path_length shortest_path fuel
                   (<[best_vehicle_idx b :=
                        mkVehicle (v_id vehicle) (graph_id survivor) path'
                          (total_distance vehicle + best_segment_dist b)%Q]>
                      vec)
                   (delete (best_survivor_idx b) rem))
  /\ (forall P n1 n2 r1 r2,
        P <> n1 -> P <> n2 ->
        shortest_path_length P n1 = Some 100%Q ->
        shortest_path_length P n2 = Some 100%Q ->
        nd_urgency r1 = Some 5 -> nd_count r1 = Some 1 ->
        nd_urgency r2 = Some 1 -> nd_count r2 = Some 10 ->
        let S1 := mkSnapped n1 r1 in
        let S2 := mkSnapped n2 r2 in
        let vec := init_vehicles [P] in
        score (mkVehicle 0 P [P] 0%Q) S1 100%Q = Ok ((0 + 100) / inject_Z 26)%Q
        /\ score (mkVehicle 0 P [P] 0%Q) S2 100%Q
           = Ok ((0 + 100) / inject_Z 11)%Q
        /\ ((0 + 100) / inject_Z 26 < (0 + 100) / inject_Z 11)%Q
        /\ (exists b, select_best shortest_path_length vec [S1; S2]
                      = Ok (Some b)
                      /\ [S1; S2] !! best_survivor_idx b = Some S1)
        /\ (exists b, select_best shortest_path_length vec [S2; S1]
                      = Ok (Some b)
                      /\ [S2; S1] !! best_survivor_idx b = Some S1)).
Proof.
  split.
  - intros vec rem b Hsel.
    pose proof (select_best_spec _ _ _ _ Hsel) as [Hc Hmin].
    split; [exact Hc|]. split; [intros; eapply Hmin; eauto|].
    destruct Hc as (vehicle & survivor & Hv & Hs & _).
    destruct (assign_spec shortest_path _ _ _ _ _ Hv Hs) as [path' Hassign].
    exists vehicle, survivor, path'. split; [exact Hv|]. split; [exact Hs|].
    intros fuel. destruct rem as [|s0 rem]; [discriminate Hs|].
    simpl. rewrite Hsel, Hassign. reflexivity.
  - intros P n1 n2 r1 r2 HP1 HP2 Hd1 Hd2 Hu1 Hc1 Hu2 Hc2 S1 S2 vec.
    destruct (scenario_round shortest_path_length P n1 n2 r1 r2
                HP1 HP2 Hd1 Hd2 Hu1 Hc1 Hu2 Hc2) as [Ha Hb].
    split; [unfold score; simpl; rewrite Hu1, Hc1; reflexivity|].
    split; [unfold score; simpl; rewrite Hu2, Hc2; reflexivity|].
    split; [reflexivity|].
    split; eexists; (split; [eassumption|reflexivity]).
Qed.




(** The scenario of C1 on the star of [Scenario]. *)
Lemma solve_routes_assigns_min_score_witness :
  (exists b,
     select_best Scenario.star_length (init_vehicles [1])
                 [Scenario.S1; Scenario.S2] = Ok (Some b)
     /\ [Scenario.S1; Scenario.S2] !! best_survivor_idx b = Some Scenario.S1)
  /\ solve_routes Scenario.star_length Scenario.star_path
       [Scenario.S1; Scenario.S2] [1]
     = Some (Ok [[1; 2; 1; 3; 1]]).
Proof.
  split; [|reflexivity].
  destruct (proj2 (solve_routes_assigns_min_score
                     Scenario.star_length Scenario.star_path)
                  1 2 3 (req Scenario.S1) (req Scenario.S2))
    as (_ & _ & _ & H & _);
    [lia | lia | reflexivity | reflexivity | reflexivity | reflexivity
     | reflexivity | reflexivity | exact H].
Defined.

(** In the scenario the score the code gives S1 is 100/26, which is not
    4. *)
Lemma scenario_score_of_S1_is_not_4 :
  exists b,
    select_best Scenario.star_length (init_vehicles [1])
                [Scenario.S1; Scenario.S2] = Ok (Some b)
    /\ [Scenario.S1; Scenario.S2] !! best_survivor_idx b = Some Scenario.S1
    /\ (best_global_score b == 100 # 26)%Q
    /\ ~ (best_global_score b == 4)%Q.
Proof.
  eexists. split; [reflexivity|]. split; [reflexivity|]. simpl.
  split; [reflexivity|]. intros H. discriminate H.
Qed.

End RouterFacts.

Module UtilsFacts.

Import Utils.

Lemma get_edge_data_update k f G key :
  get_edge_data (edges (update_edge k f G)) key
  = if decide (k = key) then f <$> get_edge_data (edges G) key
    else get_edge_data (edges G) key.
Proof.
  unfold update_edge. simpl.
  induction (edges G) as [|[k0 d0] es IH]; simpl.
  - destruct (decide (k = key)); reflexivity.
  - destruct (decide (k0 = k)) as [->|Hne]; simpl.
    + destruct (decide (k = key)) as [->|Hk]; simpl; [reflexivity|].
      rewrite IH. destruct (decide (k = key)); [contradiction|reflexivity].
    + destruct (decide (k0 = key)) as [->|Hk].
      * destruct (decide (k = key)) as [->|_]; [contradiction|reflexivity].
      * exact IH.
Qed.

Lemma keys_update k f G : map fst (edges (update_edge k f G)) = map fst (edges G).
Proof.
  unfold update_edge. simpl. rewrite map_map. apply map_ext.
  intros [k0 d0]. simpl. destruct (decide (k0 = k)); reflexivity.
Qed.

Lemma keys_between_in G u v key d :
  get_edge_data (edges G) (u, v, key) = Some d -> key ∈ keys_between G u v.
Proof.
  unfold keys_between.
  induction (edges G) as [|[[[a b] k0] d0] es IH]; simpl; [discriminate|].
  intros H. case_decide as Heq.
  - injection Heq as -> -> ->.
    case_decide as Hn; [left|tauto].
  - specialize (IH H).
    case_decide; [right|]; exact IH.
Qed.

Lemma set_state_twice s d : set_state s (set_state s d) = set_state s d.
Proof. reflexivity. Qed.

(** The loop [for k in G[v][u]] of [edit_edges]. *)
Lemma set_state_loop_get s v u (ks : list Z) :
  forall G key d,
    get_edge_data (edges G) key = Some d ->
    exists d',
      get_edge_data
        (edges (fold_left (fun G' k => update_edge (v, u, k) (set_state s) G')
                          ks G)) key = Some d'
      /\ (d' = d \/ d' = set_state s d)
      /\ (forall k, k ∈ ks -> key = (v, u, k) -> d' = set_state s d).
Proof.
  induction ks as [|k0 ks IH]; intros G key d Hget; simpl.
  - exists d. split; [exact Hget|]. split; [auto|].
    intros k Hk. inversion Hk.
  - assert (Hup :
      get_edge_data (edges (update_edge (v, u, k0) (set_state s) G)) key
      = Some (if decide ((v, u, k0) = key) then set_state s d else d)).
    { rewrite get_edge_data_update, Hget. case_decide; reflexivity. }
    destruct (decide ((v, u, k0) = key)) as [Heq|Hne].
    + destruct (IH _ _ _ Hup) as (d' & Hd' & Hcase & Hall).
      exists d'. split; [exact Hd'|].
      assert (Hd : d' = set_state s d).
      { destruct Hcase as [->| ->]; reflexivity. }
      split; [right; exact Hd|]. intros; exact Hd.
    + destruct (IH _ _ _ Hup) as (d' & Hd' & Hcase & Hall).
      exists d'. split; [exact Hd'|]. split; [exact Hcase|].
      intros k Hk Hkey. apply elem_of_cons in Hk as [->|Hk].
      * congruence.
      * exact (Hall k Hk Hkey).
Qed.

Lemma set_state_loop_keys s v u (ks : list Z) :
  forall G,
    map fst (edges (fold_left
                      (fun G' k => update_edge (v, u, k) (set_state s) G')
                      ks G))
    = map fst (edges G).
Proof.
  induction ks as [|k0 ks IH]; intros G; simpl; [reflexivity|].
  rewrite IH. apply keys_update.
Qed.

Lemma edit_edge_keys G m : map fst (edges (edit_edge G m)) = map fst (edges G).
Proof.
  unfold edit_edge.
  destruct (has_edge_key G _ _ _); destruct (has_edge _ _ _);
    rewrite ?set_state_loop_keys, ?keys_update; reflexivity.
Qed.

(** One modification of an existing edge sets its state and that of every
    edge in the reverse direction. *)
Lemma edit_edge_symmetric G m d :
  get_edge_data (edges G) (em_u m, em_v m, em_key m) = Some d ->
  exists e,
    get_edge_data (edges (edit_edge G m)) (em_u m, em_v m, em_key m) = Some e
    /\ attr_state e = Some (em_state m)
    /\ forall k' d',
         get_edge_data (edges G) (em_v m, em_u m, k') = Some d' ->
         exists e',
           get_edge_data (edges (edit_edge G m)) (em_v m, em_u m, k')
           = Some e'
           /\ attr_state e' = attr_state e.
Proof.
  intros Hget. unfold edit_edge.
  assert (Hhas : has_edge_key G (em_u m) (em_v m) (em_key m) = true).
  { unfold has_edge_key. apply bool_decide_eq_true. rewrite Hget. eauto. }
  rewrite Hhas.
  set (s := em_state m).
  set (G1 := update_edge (em_u m, em_v m, em_key m) (set_state s) G).
  assert (H1 : get_edge_data (edges G1) (em_u m, em_v m, em_key m)
               = Some (set_state s d)).
  { unfold G1. rewrite get_edge_data_update, Hget.
    destruct (decide _); [reflexivity|contradiction]. }
  assert (Hrev : forall k' d',
            get_edge_data (edges G) (em_v m, em_u m, k') = Some d' ->
            exists d1, get_edge_data (edges G1) (em_v m, em_u m, k') = Some d1).
  { intros k' d' H. unfold G1. rewrite get_edge_data_update, H.
    destruct (decide _); simpl; eauto. }
  destruct (has_edge G1 (em_v m) (em_u m)) eqn:Hany.
  - destruct (set_state_loop_get s (em_v m) (em_u m)
                (keys_between G1 (em_v m) (em_u m)) G1 _ _ H1)
      as (e & He & Hcase & _).
    exists e. split; [exact He|].
    assert (Hs : attr_state e = Some s).
    { destruct Hcase as [->| ->]; reflexivity. }
    split; [exact Hs|]. intros k' d' H.
    destruct (Hrev _ _ H) as [d1 Hd1].
    destruct (set_state_loop_get s (em_v m) (em_u m)
                (keys_between G1 (em_v m) (em_u m)) G1 _ _ Hd1)
      as (e' & He' & _ & Hall).
    exists e'. split; [exact He'|].
    rewrite (Hall k' (keys_between_in _ _ _ _ _ Hd1) eq_refl), Hs.
    reflexivity.
  - exists (set_state s d). split; [exact H1|]. split; [reflexivity|].
    intros k' d' H. destruct (Hrev _ _ H) as [d1 Hd1].
    apply keys_between_in in Hd1. unfold has_edge in Hany.
    destruct (keys_between G1 (em_v m) (em_u m)); [inversion Hd1|discriminate].
Qed.

(** C6: once [edit_edges] has applied a modification to an existing edge
    [(u, v, k)], that edge and every parallel edge [(v, u, k')] in the
    reverse direction carry the same state, the new one; no edge is added
    or removed. *)
Theorem edit_edges_direction_symmetric
    (G0 : Graph) (ms : list EdgeModification) (m : EdgeModification)
    (d : EdgeData) :
  get_edge_data (edges (edit_edges G0 ms)) (em_u m, em_v m, em_key m)
  = Some d ->
  exists e,
    get_edge_data (edges (edit_edges G0 (ms ++ [m])))
                  (em_u m, em_v m, em_key m) = Some e
    /\ attr_state e = Some (em_state m)
    /\ (forall k' d',
          get_edge_data (edges (edit_edges G0 ms)) (em_v m, em_u m, k')
          = Some d' ->
          exists e',
            get_edge_data (edges (edit_edges G0 (ms ++ [m])))
                          (em_v m, em_u m, k') = Some e'
            /\ attr_state e' = attr_state e)
    /\ map fst (edges (edit_edges G0 (ms ++ [m])))
       = map fst (edges (edit_edges G0 ms)).
Proof.
  intros Hget. unfold edit_edges. rewrite fold_left_app. simpl.
  fold (edit_edges G0 ms).
  destruct (edit_edge_symmetric _ _ _ Hget) as (e & He & Hs & Hrev).
  exists e. split; [exact He|]. split; [exact Hs|]. split; [exact Hrev|].
  apply edit_edge_keys.
Qed.

Section Deduplication.

Variable haversine_distance : Q -> Q -> Q -> Q -> Q.

Local Abbreviation within_tolerance := (within_tolerance haversine_distance).
Local Abbreviation merge_target := (merge_target haversine_distance).
Local Abbreviation find_duplicate := (find_duplicate haversine_distance).
Local Abbreviation dedup_step := (dedup_step haversine_distance).
Local Abbreviation deduplicate_nodes := (deduplicate_nodes haversine_distance).

Lemma find_duplicate_none node unique :
  Forall (fun e => within_tolerance node e = false) unique ->
  find_duplicate node unique = Ok None.
Proof.
  induction 1 as [|e rest Hfar _ IH]; simpl; [reflexivity|].
  unfold Utils.within_tolerance in Hfar. rewrite Hfar, IH. reflexivity.
Qed.

(** The inner loop merges into the first kept point within the
    tolerance and leaves the others alone. *)
Lemma find_duplicate_first node pre e post :
  Forall (fun e' => within_tolerance node e' = false) pre ->
  within_tolerance node e = true ->
  find_duplicate node (pre ++ e :: post)
  = (merged ← merge_into e node; Ok (Some (pre ++ merged :: post))).
Proof.
  intros Hpre Hclose. induction Hpre as [|e' rest Hfar _ IH]; simpl.
  - unfold Utils.within_tolerance in Hclose. rewrite Hclose.
    destruct (merge_into e node); reflexivity.
  - unfold Utils.within_tolerance in Hfar. rewrite Hfar, IH.
    destruct (merge_into e node); reflexivity.
Qed.

Lemma merge_target_split node unique e :
  merge_target node unique = Some e ->
  exists pre post,
    unique = pre ++ e :: post
    /\ Forall (fun e' => within_tolerance node e' = false) pre
    /\ within_tolerance node e = true.
Proof.
  unfold Utils.merge_target.
  induction unique as [|e0 rest IH]; simpl; [discriminate|].
  destruct (within_tolerance node e0) eqn:Hc.
  - intros H. injection H as <-. exists [], rest. auto.
  - intros H. destruct (IH H) as (pre & post & -> & Hpre & Hclose).
    exists (e0 :: pre), post. split; [reflexivity|]. split; [|exact Hclose].
    constructor; assumption.
Qed.

Lemma merge_target_none node unique :
  merge_target node unique = None ->
  Forall (fun e' => within_tolerance node e' = false) unique.
Proof.
  unfold Utils.merge_target. intros H. apply Forall_forall. intros e He.
  apply list_elem_of_In in He.
  exact (find_none _ _ H e He).
Qed.

Lemma deduplicate_nodes_snoc nodes node :
  deduplicate_nodes (nodes ++ [node])
  = (kept ← deduplicate_nodes nodes; dedup_step kept node).
Proof.
  unfold Utils.deduplicate_nodes. rewrite rfoldi_app.
  destruct (rfoldi _ 0 nodes []) as [kept|e]; simpl; [|reflexivity].
  destruct (Utils.dedup_step haversine_distance kept node); reflexivity.
Qed.

Lemma deduplicate_nodes_app_raise nodes post e :
  deduplicate_nodes nodes = Raise e ->
  deduplicate_nodes (nodes ++ post) = Raise e.
Proof.
  unfold Utils.deduplicate_nodes. intros H. rewrite rfoldi_app, H.
  reflexivity.
Qed.

Lemma merge_into_raise e node :
  nd_urgency e = None \/ nd_count e = None \/ nd_count node = None ->
  merge_into e node = Raise TypeError.
Proof.
  unfold merge_into. intros H.
  destruct (nd_urgency e); [|reflexivity].
  destruct (nd_count e); [|reflexivity].
  destruct (nd_count node); [|reflexivity].
  destruct H as [H|[H|H]]; discriminate.
Qed.

Lemma merge_into_ok e node merged :
  merge_into e node = Ok merged ->
  exists eu ec nc,
    nd_urgency e = Some eu /\ nd_count e = Some ec
    /\ nd_count node = Some nc
    /\ merged = mkNodeData (nd_id e) (nd_x e) (nd_y e) (nd_type e)
                  (Some (Z.max eu (default 0 (nd_urgency node))))
                  (Some (ec + nc)).
Proof.
  unfold merge_into. intros H.
  destruct (nd_urgency e) as [eu|]; [|discriminate].
  destruct (nd_count e) as [ec|]; [|discriminate].
  destruct (nd_count node) as [nc|]; [|discriminate].
  injection H as <-. exists eu, ec, nc. auto.
Qed.

Lemma dedup_step_merge node kept e eu ec nc :
  merge_target node kept = Some e ->
  nd_urgency e = Some eu -> nd_count e = Some ec ->
  nd_count node = Some nc ->
  exists pre post,
    kept = pre ++ e :: post
    /\ Forall (fun e' => within_tolerance node e' = false) pre
    /\ dedup_step kept node
       = Ok (pre ++ mkNodeData (nd_id e) (nd_x e) (nd_y e) (nd_type e)
                      (Some (Z.max eu (default 0 (nd_urgency node))))
                      (Some (ec + nc))
                 :: post).
Proof.
  intros Ht Hu Hc Hn.
  destruct (merge_target_split _ _ _ Ht) as (pre & post & -> & Hpre & Hclose).
  exists pre, post. split; [reflexivity|]. split; [exact Hpre|].
  unfold Utils.dedup_step. rewrite (find_duplicate_first _ _ _ _ Hpre Hclose).
  unfold merge_into. rewrite Hu, Hc, Hn. reflexivity.
Qed.

Lemma dedup_step_keep node kept :
  merge_target node kept = None ->
  dedup_step kept node = Ok (kept ++ [node]).
Proof.
  intros Ht. unfold Utils.dedup_step.
  rewrite (find_duplicate_none _ _ (merge_target_none _ _ Ht)). reflexivity.
Qed.

Lemma dedup_step_raise node kept e :
  merge_target node kept = Some e ->
  nd_urgency e = None \/ nd_count e = None \/ nd_count node = None ->
  dedup_step kept node = Raise TypeError.
Proof.
  intros Ht Hbad.
  destruct (merge_target_split _ _ _ Ht) as (pre & post & -> & Hpre & Hclose).
  unfold Utils.dedup_step. rewrite (find_duplicate_first _ _ _ _ Hpre Hclose).
  rewrite (merge_into_raise _ _ Hbad). reflexivity.
Qed.

Lemma within_tolerance_lt node e :
  within_tolerance node e = true
  <-> (haversine_distance (nd_y node) (nd_x node) (nd_y e) (nd_x e) < 10)%Q.
Proof. apply Qltb_lt. Qed.

End Deduplication.

Section Integration.

Variable haversine_distance : Q -> Q -> Q -> Q -> Q.
Variable project : LineString -> Q * Q -> Q.
Variable interpolate : LineString -> Q -> Q * Q.
Variable substring : LineString -> Q -> Q -> LineString.
Variable line_length : LineString -> Q.
Variable str_hash : Z -> Z -> Z -> Q -> Z.
Variable nearest_edges : Q -> Q -> EdgeKey.
Variable time : nat -> Q.

Local Abbreviation split_edge_at_point :=
  (split_edge_at_point haversine_distance project interpolate substring
                       line_length str_hash).
Local Abbreviation integrate_step :=
  (integrate_step haversine_distance project interpolate substring
                  line_length str_hash nearest_edges time).
Local Abbreviation integrate_from :=
  (integrate_from haversine_distance project interpolate substring
                  line_length str_hash nearest_edges time).

Lemma new_node_id_of_range h :
  -9999999 <= new_node_id_of h <= 0
  /\ (new_node_id_of h = 0 <-> h mod 10000000 = 0).
Proof.
  unfold new_node_id_of.
  pose proof (Z.mod_pos_bound h 10000000 ltac:(lia)). lia.
Qed.

(** Whatever the geometry, a successful split names its node by the
    hash. *)
Lemma split_edge_at_point_id now G u v key pt id G' :
  split_edge_at_point now G u v key pt = Ok (Some id, G') ->
  id = new_node_id_of (str_hash u v key now).
Proof.
  unfold Utils.split_edge_at_point.
  destruct (get_edge_data (edges G) (u, v, key)) as [data|];
    [|intros H; discriminate H].
  intros H.
  repeat match type of H with
         | mbind _ ?r = Ok _ =>
             let x := fresh "x" in
             destruct r as [x|] eqn:?; simpl in H; [|discriminate H];
             try destruct x as [? ?]
         end.
  injection H as <- _. reflexivity.
Qed.

Lemma integrate_from_snoc st nodes node_req :
  integrate_from st (nodes ++ [node_req])
  = (st1 ← integrate_from st nodes; integrate_step st1 node_req).
Proof.
  unfold Utils.integrate_from. rewrite rfoldi_app.
  destruct (rfoldi _ 0 nodes st) as [st1|e]; simpl; [|reflexivity].
  destruct (Utils.integrate_step _ _ _ _ _ _ _ _ st1 node_req); reflexivity.
Qed.

(** Priority 1 of the snap policy, endpoint [u] first. *)
Lemma integrate_step_snaps st node_req u v key ux uy vx vy :
  nearest_edges (nd_x node_req) (nd_y node_req) = (u, v, key) ->
  nodes (is_graph st) !! u = Some (ux, uy) ->
  nodes (is_graph st) !! v = Some (vx, vy) ->
  ((haversine_distance (nd_y node_req) (nd_x node_req) uy ux < 50)%Q ->
   integrate_step st node_req
   = Ok (mkIntState (is_graph st)
           (is_snapped st ++ [mkSnapped u node_req]) (is_ticks st)))
  /\ ((50 <= haversine_distance (nd_y node_req) (nd_x node_req) uy ux)%Q ->
      (haversine_distance (nd_y node_req) (nd_x node_req) vy vx < 50)%Q ->
      integrate_step st node_req
      = Ok (mkIntState (is_graph st)
              (is_snapped st ++ [mkSnapped v node_req]) (is_ticks st))).
Proof.
  intros Hnear Hu Hv. unfold Utils.integrate_step, node_xy.
  rewrite Hnear, Hu, Hv. simpl. split.
  - intros Hlt. apply Qltb_lt in Hlt. rewrite Hlt. reflexivity.
  - intros Hge Hlt. apply Qltb_ge in Hge. apply Qltb_lt in Hlt.
    rewrite Hge, Hlt. reflexivity.
Qed.

End Integration.


(** The id of a split node lies between -9999999 and 0, and it is 0
    exactly when the hash is a multiple of 10000000. *)
Lemma split_edge_new_node_id_range
    (haversine_distance : Q -> Q -> Q -> Q -> Q)
    (project : LineString -> Q * Q -> Q)
    (interpolate : LineString -> Q -> Q * Q)
    (substring : LineString -> Q -> Q -> LineString)
    (line_length : LineString -> Q)
    (str_hash : Z -> Z -> Z -> Q -> Z)
    now G u v key pt id G' :
  split_edge_at_point haversine_distance project interpolate substring
    line_length str_hash now G u v key pt = Ok (Some id, G') ->
  -9999999 <= id <= 0
  /\ (id = 0 <-> str_hash u v key now mod 10000000 = 0).
Proof.
  intros H. apply split_edge_at_point_id in H. subst id.
  apply new_node_id_of_range.
Qed.

(** C4, at a hash that is a multiple of 10000000: the split of the
    existing edge (1, 2, 0) of the street succeeds and returns the node id
    0, which is not negative; the node 0 is in the graph afterwards. *)
Theorem split_edge_returns_zero_id :
  exists G',
    split_edge_at_point Scenario.street_distance Scenario.street_project
      Scenario.street_interpolate Scenario.street_substring
      Scenario.street_length Scenario.hash_at
      (Scenario.clock 0) Scenario.street 1 2 0 ((100 # 111195)%Q, 0%Q)
    = Ok (Some 0, G')
    /\ is_Some (get_edge_data (edges Scenario.street) (1, 2, 0))
    /\ Scenario.hash_at 1 2 0 (Scenario.clock 0) = 8024500227580000000
    /\ is_Some (nodes G' !! 0)
    /\ map fst (edges G') = [(2, 1, 0); (1, 0, 0); (0, 2, 0)].
Proof.
  eexists. split; [vm_compute; reflexivity|].
  split; [vm_compute; eauto|]. split; [reflexivity|].
  split; [vm_compute; eauto|reflexivity].
Qed.

(** C5: [deduplicate_nodes] goes through the points in input order.  A
    point whose great-circle distance to a kept point is under 10 m is
    merged into the first such kept point: that point keeps its place and
    gets the larger of the two urgencies (a missing incoming urgency
    counting as 0) and the sum of the two counts; a point with no kept
    point within 10 m is appended unchanged.  Two survivors 5 m apart give
    one point with the counts summed and the larger urgency; two points
    20 m apart are both kept. *)
Theorem deduplicate_nodes_merges_within_10m
    (haversine_distance : Q -> Q -> Q -> Q -> Q) :
  (forall node e,
     within_tolerance haversine_distance node e = true
     <-> (haversine_distance (nd_y node) (nd_x node) (nd_y e) (nd_x e)
          < 10)%Q)
  /\ (forall nodes kept node,
        deduplicate_nodes haversine_distance nodes = Ok kept ->
        (forall e eu ec nc,
           merge_target haversine_distance node kept = Some e ->
           nd_urgency e = Some eu -> nd_count e = Some ec ->
           nd_count node = Some nc ->
           exists pre post,
             kept = pre ++ e :: post
             /\ Forall (fun e' =>
                          within_tolerance haversine_distance node e' = false)
                       pre
             /\ deduplicate_nodes haversine_distance (nodes ++ [node])
                = Ok (pre ++ mkNodeData (nd_id e) (nd_x e) (nd_y e)
                               (nd_type e)
                               (Some (Z.max eu (default 0 (nd_urgency node))))
                               (Some (ec + nc))
                          :: post))
        /\ (Forall (fun e' =>
                      within_tolerance haversine_distance node e' = false)
                   kept ->
            deduplicate_nodes haversine_distance (nodes ++ [node])
            = Ok (kept ++ [node])))
  /\ (forall a b ua ca ub cb,
        nd_urgency a = Some ua -> nd_count a = Some ca ->
        nd_urgency b = Some ub -> nd_count b = Some cb ->
        (haversine_distance (nd_y b) (nd_x b) (nd_y a) (nd_x a) == 5)%Q ->
        deduplicate_nodes haversine_distance [a; b]
        = Ok [mkNodeData (nd_id a) (nd_x a) (nd_y a) (nd_type a)
                (Some (Z.max ua ub)) (Some (ca + cb))])
  /\ (forall a b,
        (haversine_distance (nd_y b) (nd_x b) (nd_y a) (nd_x a) == 20)%Q ->
        deduplicate_nodes haversine_distance [a; b] = Ok [a; b]).
Proof.
  split; [apply within_tolerance_lt|]. split; [|split].
  - intros nodes kept node Hkept. split.
    + intros e eu ec nc Ht Hu Hc Hn.
      destruct (dedup_step_merge haversine_distance _ _ _ _ _ _ Ht Hu Hc Hn)
        as (pre & post & Hsplit & Hpre & Hstep).
      exists pre, post. split; [exact Hsplit|]. split; [exact Hpre|].
      rewrite deduplicate_nodes_snoc, Hkept. exact Hstep.
    + intros Hfar. rewrite deduplicate_nodes_snoc, Hkept. simpl.
      unfold dedup_step. rewrite (find_duplicate_none _ _ _ Hfar).
      reflexivity.
  - intros a b ua ca ub cb Hua Hca Hub Hcb Hd.
    unfold deduplicate_nodes, dedup_step. simpl.
    assert (Hclose : Qltb (haversine_distance (nd_y b) (nd_x b)
                                              (nd_y a) (nd_x a)) 10 = true).
    { apply Qltb_lt. rewrite Hd. reflexivity. }
    rewrite Hclose. unfold merge_into. rewrite Hua, Hca, Hub, Hcb.
    reflexivity.
  - intros a b Hd.
    unfold deduplicate_nodes, dedup_step. simpl.
    assert (Hfar : Qltb (haversine_distance (nd_y b) (nd_x b)
                                            (nd_y a) (nd_x a)) 10 = false).
    { apply Qltb_ge. rewrite Hd. discriminate. }
    rewrite Hfar. reflexivity.
Qed.


End UtilsFacts.

Module MainFacts.

Import Utils Main.

(** What the standard-weight loop makes of one edge. *)
Local Abbreviation std_entry :=
  (fun e : EdgeKey * EdgeData =>
     (fst e,
      set_travel_cost (edge_length (snd e) * state_multiplier (snd e))%Q
                      (snd e))).

Lemma update_loop_edges (f : EdgeData -> EdgeData) (ks : list EdgeKey) :
  (forall d, f (f d) = f d) ->
  forall G,
    edges (fold_left (fun G' k => update_edge k f G') ks G)
    = map (fun e : EdgeKey * EdgeData =>
             if decide (fst e ∈ ks) then (fst e, f (snd e)) else e)
          (edges G).
Proof.
  intros Hidem. induction ks as [|k0 ks IH]; intros G; simpl.
  - rewrite <- (map_id (edges G)) at 1. apply map_ext.
    intros e. destruct (decide (fst e ∈ [])) as [H|_]; [inversion H|reflexivity].
  - rewrite IH. unfold update_edge. simpl. rewrite map_map.
    apply map_ext. intros [k d]. simpl.
    destruct (decide (k = k0)) as [->|Hne]; simpl.
    + destruct (decide (k0 ∈ k0 :: ks)) as [_|Hn]; [|exfalso; apply Hn; left].
      destruct (decide (k0 ∈ ks)); [rewrite Hidem|]; reflexivity.
    + destruct (decide (k ∈ ks)) as [Hin|Hnin];
        destruct (decide (k ∈ k0 :: ks)) as [Hin'|Hnin']; try reflexivity.
      * exfalso. apply Hnin'. right. exact Hin.
      * exfalso. apply elem_of_cons in Hin' as [?|?]; contradiction.
Qed.

Lemma standard_weights_edges G :
  edges (standard_weights G) = map std_entry (edges G).
Proof.
  unfold standard_weights. rewrite update_loop_edges by reflexivity.
  apply map_ext_in. intros [k d] Hin. simpl.
  destruct (decide (k ∈ map fst (edges G))) as [_|Hn]; [reflexivity|].
  exfalso. apply Hn. apply list_elem_of_In.
  apply (in_map fst) in Hin. exact Hin.
Qed.

Lemma standard_weights_nodes G : nodes (standard_weights G) = nodes G.
Proof.
  unfold standard_weights.
  generalize (map fst (edges G)). intros ks. revert G.
  induction ks as [|k ks IH]; intros G; simpl; [reflexivity|].
  rewrite IH. reflexivity.
Qed.

(** Updating the only edge with key [k]. *)
Lemma update_edge_at k f G pre d suf :
  edges G = pre ++ (k, d) :: suf ->
  NoDup (map fst (pre ++ (k, d) :: suf)) ->
  edges (update_edge k f G) = pre ++ (k, f d) :: suf.
Proof.
  intros HG Hnd. unfold update_edge. simpl. rewrite HG, map_app. simpl.
  rewrite map_app in Hnd. simpl in Hnd.
  apply NoDup_app in Hnd as (_ & Hpre & Hsuf).
  apply NoDup_cons in Hsuf as [Hsuf _].
  destruct (decide (k = k)) as [_|?]; [|contradiction].
  f_equal; [|f_equal].
  - rewrite <- (map_id pre) at 2. apply map_ext_in. intros [k' d'] Hin.
    simpl. destruct (decide (k' = k)) as [->|_]; [|reflexivity].
    exfalso. apply (Hpre k).
    + apply list_elem_of_In. apply (in_map fst) in Hin. exact Hin.
    + left.
  - rewrite <- (map_id suf) at 2. apply map_ext_in. intros [k' d'] Hin.
    simpl. destruct (decide (k' = k)) as [->|_]; [|reflexivity].
    exfalso. apply Hsuf.
    apply list_elem_of_In. apply (in_map fst) in Hin. exact Hin.
Qed.

(** The loop over [enumerate(ordered_edges)] when every edge has its
    probability. *)
Lemma neural_weights_complete probs (suf : list (EdgeKey * EdgeData)) :
  forall pre i G,
    edges G = pre ++ suf ->
    NoDup (map fst (pre ++ suf)) ->
    (i + length suf <= length probs)%nat ->
    exists G',
      neural_weights (map fst suf) probs i G = (G', true)
      /\ nodes G' = nodes G
      /\ edges G' = pre ++ discounted probs i suf.
Proof.
  induction suf as [|[k d] suf IH]; intros pre i G HG Hnd Hlen; simpl in *.
  - exists G. rewrite HG. auto.
  - destruct (probs !! i) as [p|] eqn:Hp.
    2:{ apply lookup_ge_None in Hp. lia. }
    set (f := fun d0 : EdgeData =>
                set_travel_cost
                  (edge_length d0 * state_multiplier d0 * neural_discount p)%Q
                  d0).
    pose proof (update_edge_at k f G pre d suf HG Hnd) as Hup.
    destruct (IH (pre ++ [(k, f d)]) (S i) (update_edge k f G)) as
      (G' & Hrun & Hnodes & Hedges).
    + rewrite Hup, <- app_assoc. reflexivity.
    + rewrite <- app_assoc. simpl.
      rewrite map_app in *. simpl in *. exact Hnd.
    + lia.
    + exists G'. split; [exact Hrun|]. split; [exact Hnodes|].
      rewrite Hedges, <- app_assoc. reflexivity.
Qed.

(** Whatever the loop did before it stopped, it only wrote travel
    costs. *)
Lemma neural_weights_standard (ks : list EdgeKey) probs :
  forall i G,
    map std_entry (edges (fst (neural_weights ks probs i G)))
    = map std_entry (edges G)
    /\ nodes (fst (neural_weights ks probs i G)) = nodes G.
Proof.
  induction ks as [|k ks IH]; intros i G; simpl; [auto|].
  destruct (probs !! i) as [p|]; simpl; [|auto].
  destruct (IH (S i)
              (update_edge k
                 (fun d => set_travel_cost
                             (edge_length d * state_multiplier d
                              * neural_discount p)%Q d) G)) as [He Hn].
  rewrite He, Hn. split; [|reflexivity].
  unfold update_edge. simpl. rewrite map_map. apply map_ext.
  intros [k' d']. simpl. destruct (decide (k' = k)); reflexivity.
Qed.

Lemma neural_weights_short probs (ks : list EdgeKey) :
  forall i G,
    (length probs < i + length ks)%nat ->
    (i <= length probs)%nat ->
    snd (neural_weights ks probs i G) = false.
Proof.
  induction ks as [|k ks IH]; intros i G Hlen Hi; simpl in *; [lia|].
  destruct (probs !! i) as [p|] eqn:Hp; [|reflexivity].
  apply lookup_lt_Some in Hp. apply IH; lia.
Qed.

Lemma discounted_lookup probs (es : list (EdgeKey * EdgeData)) :
  forall i j key d,
    es !! j = Some (key, d) ->
    discounted probs i es !! j
    = Some (match probs !! (i + j)%nat with
            | Some p =>
                (key,
                 set_travel_cost
                   (edge_length d * state_multiplier d * neural_discount p)%Q
                   d)
            | None => (key, d)
            end).
Proof.
  induction es as [|e es IH]; intros i j key d Hj; [discriminate|].
  destruct j as [|j]; simpl in *.
  - injection Hj as ->. replace (i + 0)%nat with i by lia.
    destruct (probs !! i); reflexivity.
  - rewrite (IH (S i) j key d Hj).
    replace (S i + j)%nat with (i + S j)%nat by lia. reflexivity.
Qed.


End MainFacts.

Module CacheFacts.

Import Cache.

Lemma length_string_of_list_ascii (l : list ascii) :
  String.length (string_of_list_ascii l) = length l.
Proof. induction l as [|c l IH]; simpl; [reflexivity|]. rewrite IH. reflexivity. Qed.

Lemma is_hex_hex_digit n : SHA1.is_hex (SHA1.hex_digit n) = true.
Proof.
  unfold SHA1.hex_digit.
  pose proof (Z.mod_pos_bound n 16 ltac:(lia)) as Hb.
  assert (Hm : exists k, (k < 16)%nat /\ Z.to_nat (n mod 16) = k).
  { exists (Z.to_nat (n mod 16)). split; [lia|reflexivity]. }
  destruct Hm as (k & Hk & ->).
  do 16 (destruct k as [|k]; [reflexivity|]). lia.
Qed.

Lemma hex8_spec w :
  length (SHA1.hex8 w) = 8%nat /\ forallb SHA1.is_hex (SHA1.hex8 w) = true.
Proof.
  split; [reflexivity|]. unfold SHA1.hex8. cbn [map forallb].
  rewrite !is_hex_hex_digit. reflexivity.
Qed.

(** A SHA-1 hex digest is 40 hexadecimal characters. *)
Lemma hexdigest_spec msg :
  String.length (SHA1.hexdigest msg) = 40%nat
  /\ forallb SHA1.is_hex (list_ascii_of_string (SHA1.hexdigest msg)) = true.
Proof.
  unfold SHA1.hexdigest.
  destruct (SHA1.digest msg) as [[[[h0 h1] h2] h3] h4].
  rewrite length_string_of_list_ascii, list_ascii_of_string_of_list_ascii.
  split.
  - rewrite !length_app. reflexivity.
  - rewrite !forallb_app.
    rewrite (proj2 (hex8_spec h0)), (proj2 (hex8_spec h1)),
            (proj2 (hex8_spec h2)), (proj2 (hex8_spec h3)),
            (proj2 (hex8_spec h4)).
    reflexivity.
Qed.

(** Rounded values are fractions over [10 ^ ndigits]: two of them are the
    same number only if they are the same fraction. *)
Lemma py_round_same x y ndigits :
  (py_round x ndigits == py_round y ndigits)%Q ->
  py_round x ndigits = py_round y ndigits.
Proof.
  unfold py_round, Qeq. simpl. intros H.
  apply Z.mul_cancel_r in H; [|lia]. rewrite H. reflexivity.
Qed.


Lemma stale_iff current_time row :
  stale (current_time - inject_Z ACCESS_TTL_SECONDS)
        (current_time - inject_Z DOWNLOAD_TTL_SECONDS) row = true
  <-> (24 * 3600 < current_time - last_access row)%Q
      \/ (7 * 24 * 3600 < current_time - download_time row)%Q.
Proof.
  unfold stale, ACCESS_TTL_SECONDS, DOWNLOAD_TTL_SECONDS.
  rewrite orb_true_iff, !Qltb_lt.
  change (inject_Z (24 * 3600)) with (24 * 3600)%Q.
  change (inject_Z (7 * 24 * 3600)) with (7 * 24 * 3600)%Q.
  split; (intros [H|H]; [left|right]; lra).
Qed.

(** C9: after [cleanup_cache] has run at time [now], a record last read
    more than 24 hours before, or downloaded more than 7 days before, is
    gone from the cache, and every other record is still there,
    unchanged. *)
Theorem cleanup_cache_evicts_expired (now : Q) (db : gmap string Row)
    (cache_key : string) (row : Row) :
  db !! cache_key = Some row ->
  ((24 * 3600 < now - last_access row)%Q
   \/ (7 * 24 * 3600 < now - download_time row)%Q ->
   cleanup_cache now db !! cache_key = None)
  /\ (~ ((24 * 3600 < now - last_access row)%Q
         \/ (7 * 24 * 3600 < now - download_time row)%Q) ->
      cleanup_cache now db !! cache_key = Some row)
  /\ (forall k r, cleanup_cache now db !! k = Some r -> db !! k = Some r).
Proof.
  intros Hrow. unfold cleanup_cache. split; [|split].
  - intros Hold. apply map_lookup_filter_None. right.
    intros r Hr. rewrite Hrow in Hr. injection Hr as <-. simpl.
    apply stale_iff in Hold. rewrite Hold. discriminate.
  - intros Hfresh. apply map_lookup_filter_Some. split; [exact Hrow|].
    simpl. destruct (stale _ _ row) eqn:Hst; [|reflexivity].
    exfalso. apply Hfresh. apply stale_iff. exact Hst.
  - intros k r H. apply map_lookup_filter_Some in H as [H _]. exact H.
Qed.

End CacheFacts.

(** * The theorems at concrete inputs *)

Module Witnesses.

Import Utils.


(** C5 on a meridian: two survivors 5 m apart become one. *)
Lemma deduplicate_nodes_merges_within_10m_witness :
  let a := Scenario.request 1 0 SURVIVOR (Some 3) (Some 2) in
  let b := Scenario.request 2 5 SURVIVOR (Some 4) (Some 1) in
  (Scenario.meridian_distance (nd_y b) (nd_x b) (nd_y a) (nd_x a) == 5)%Q
  /\ deduplicate_nodes Scenario.meridian_distance [a; b]
     = Ok [mkNodeData (nd_id a) (nd_x a) (nd_y a) (nd_type a)
             (Some (Z.max 3 4)) (Some (2 + 1))].
Proof.
  intros a b. split; [reflexivity|].
  apply (proj1 (proj2 (proj2 (UtilsFacts.deduplicate_nodes_merges_within_10m
                                Scenario.meridian_distance)))
           a b 3 2 4 1); reflexivity.
Defined.

(** The merge goes to the first kept point within 10 m: a survivor
    between a kept survivor and a kept pickup, 7 m from each, is merged
    into the survivor, which comes first. *)
Example merge_goes_to_first_kept_point :
  deduplicate_nodes Scenario.meridian_distance
    [Scenario.request 1 0 SURVIVOR (Some 3) (Some 2);
     Scenario.request 2 14 PICKUP None None;
     Scenario.request 3 7 SURVIVOR (Some 1) (Some 4)]
  = Ok [Scenario.request 1 0 SURVIVOR (Some 3) (Some 6);
        Scenario.request 2 14 PICKUP None None].
Proof. reflexivity. Qed.


(** C6 on the avenue: blocking (1, 2, 0) blocks both edges from 2 to 1. *)
Lemma edit_edges_direction_symmetric_witness :
  get_edge_data (edges (edit_edges Scenario.avenue []))
    (em_u Scenario.block_1_2, em_v Scenario.block_1_2,
     em_key Scenario.block_1_2)
  = Some Scenario.street_edge
  /\ exists e,
       get_edge_data
         (edges (edit_edges Scenario.avenue ([] ++ [Scenario.block_1_2])))
         (em_u Scenario.block_1_2, em_v Scenario.block_1_2,
          em_key Scenario.block_1_2) = Some e
       /\ attr_state e = Some (em_state Scenario.block_1_2)
       /\ (forall k' d',
             get_edge_data (edges (edit_edges Scenario.avenue []))
               (em_v Scenario.block_1_2, em_u Scenario.block_1_2, k')
             = Some d' ->
             exists e',
               get_edge_data
                 (edges (edit_edges Scenario.avenue
                           ([] ++ [Scenario.block_1_2])))
                 (em_v Scenario.block_1_2, em_u Scenario.block_1_2, k')
               = Some e'
               /\ attr_state e' = attr_state e)
       /\ map fst (edges (edit_edges Scenario.avenue
                            ([] ++ [Scenario.block_1_2])))
          = map fst (edges (edit_edges Scenario.avenue [])).
Proof.
  split; [reflexivity|].
  apply (UtilsFacts.edit_edges_direction_symmetric
           Scenario.avenue [] Scenario.block_1_2 Scenario.street_edge).
  reflexivity.
Defined.

Example avenue_blocked_both_ways :
  map (fun e => (fst e, attr_state (snd e)))
      (edges (edit_edges Scenario.avenue [Scenario.block_1_2]))
  = [((1, 2, 0), Some "blocked"%string);
     ((2, 1, 0), Some "blocked"%string);
     ((2, 1, 1), Some "blocked"%string)].
Proof. reflexivity. Qed.



(** C9: a record read 25 hours ago is evicted, one read an hour ago is
    kept. *)
Lemma cleanup_cache_evicts_expired_witness :
  let old := Cache.mkRow Scenario.street 0 0 in
  let fresh := Cache.mkRow Scenario.avenue 80000 86400 in
  let db : gmap string Cache.Row :=
    <["old"%string := old]> (<["fresh"%string := fresh]> ∅) in
  db !! "old"%string = Some old
  /\ Cache.cleanup_cache 90000 db !! "old"%string = None
  /\ Cache.cleanup_cache 90000 db !! "fresh"%string = Some fresh.
Proof.
  intros old fresh db. split; [reflexivity|]. split.
  - apply (proj1 (CacheFacts.cleanup_cache_evicts_expired
                    90000 db "old"%string old eq_refl)).
    left. reflexivity.
  - apply (proj1 (proj2 (CacheFacts.cleanup_cache_evicts_expired
                           90000 db "fresh"%string fresh eq_refl))).
    intros [H|H]; discriminate H.
Defined.

End Witnesses.

(** * Further properties of the cache *)

Module CacheMore.

Import Cache.

Lemma round_half_even_near q :
  (Qabs (inject_Z (round_half_even q) - q) <= 1 # 2)%Q.
Proof.
  unfold round_half_even.
  pose proof (Qfloor_le q) as Hlo. pose proof (Qlt_floor q) as Hhi.
  rewrite inject_Z_plus in Hhi. change (inject_Z 1) with 1%Q in Hhi.
  destruct (Qcompare_spec (q - inject_Z (Qfloor q)) (1 # 2)) as [He|Hl|Hg];
    [destruct (Z.even (Qfloor q))|..];
    rewrite ?inject_Z_plus; change (inject_Z 1) with 1%Q;
    revert Hlo Hhi He || revert Hlo Hhi Hl || revert Hlo Hhi Hg;
    generalize (inject_Z (Qfloor q)); intros f Hlo Hhi Hc;
    apply Qabs_Qle_condition; split; lra.
Qed.

Lemma round_half_even_comp x y :
  (x == y)%Q -> round_half_even x = round_half_even y.
Proof.
  intros H. unfold round_half_even.
  rewrite (Qfloor_comp _ _ H).
  assert (Hc : ((x - inject_Z (Qfloor y)) ?= 1 # 2)%Q
               = ((y - inject_Z (Qfloor y)) ?= 1 # 2)%Q).
  { apply Qcompare_comp; [rewrite H; reflexivity|reflexivity]. }
  rewrite Hc. reflexivity.
Qed.

Lemma round_half_even_Z k : round_half_even (inject_Z k) = k.
Proof.
  unfold round_half_even. rewrite Qfloor_Z.
  assert (Hc : ((inject_Z k - inject_Z k) ?= 1 # 2)%Q = Lt).
  { apply Qlt_alt. unfold Qminus. rewrite Qplus_opp_r. reflexivity. }
  rewrite Hc. reflexivity.
Qed.

Lemma py_round_5_near_and_idempotent (x : Q) :
  (Qabs (py_round x ROUND - x) <= 5 # 1000000)%Q
  /\ py_round (py_round x ROUND) ROUND = py_round x ROUND.
Proof.
  unfold ROUND. split.
  - pose proof (round_half_even_near (x * inject_Z (10 ^ 5))) as H.
    unfold py_round.
    set (k := round_half_even (x * inject_Z (10 ^ 5))) in *.
    change (Z.to_pos (10 ^ 5)) with 100000%positive.
    change (inject_Z (10 ^ 5)) with (100000 # 1)%Q in H.
    assert (Hk : (k # 100000 == inject_Z k * (1 # 100000))%Q).
    { unfold Qeq, Qmult, inject_Z. cbn [Qnum Qden]. lia. }
    rewrite Hk. apply Qabs_Qle_condition in H. apply Qabs_Qle_condition.
    revert H. generalize (inject_Z k). intros z [H1 H2]. split; lra.
  - unfold py_round. f_equal.
    set (k := round_half_even (x * inject_Z (10 ^ 5))).
    change (Z.to_pos (10 ^ 5)) with 100000%positive.
    change (inject_Z (10 ^ 5)) with (100000 # 1)%Q.
    transitivity (round_half_even (inject_Z k));
      [|apply round_half_even_Z].
    apply round_half_even_comp.
    unfold Qeq, Qmult, inject_Z. cbn [Qnum Qden]. lia.
Qed.

(** X1: [normalize_bbox] moves each coordinate by at most half a unit of the
    fifth decimal, a normalized box is its own normal form, and a box and
    its normal form have the same cache key. *)
Theorem normalize_bbox_near_and_stable (float_str : Q -> string)
    (north south east west : Q) :
  let '(n, s, e, w) := normalize_bbox north south east west in
  (Qabs (n - north) <= 5 # 1000000)%Q
  /\ (Qabs (s - south) <= 5 # 1000000)%Q
  /\ (Qabs (e - east) <= 5 # 1000000)%Q
  /\ (Qabs (w - west) <= 5 # 1000000)%Q
  /\ normalize_bbox n s e w = (n, s, e, w)
  /\ make_bbox_key float_str n s e w
     = make_bbox_key float_str north south east west.
Proof.
  unfold make_bbox_key, normalize_bbox.
  rewrite !(proj2 (py_round_5_near_and_idempotent _)).
  repeat split; try apply py_round_5_near_and_idempotent.
Qed.

(** X2: What was saved under a key is what a later load of that key returns;
    the load stamps the record with its own time and leaves the download
    time and every other key alone. *)
Theorem load_after_save (saved_at read_at : Q) (db : gmap string Row)
    (cache_key : string) (G : Utils.Graph) :
  load_from_cache read_at (save_to_cache saved_at db cache_key G) cache_key
  = (Some G, <[cache_key := mkRow G saved_at read_at]> db)
  /\ (forall other,
        other <> cache_key ->
        snd (load_from_cache read_at
               (save_to_cache saved_at db cache_key G) cache_key) !! other
        = db !! other)
  /\ (forall read_at',
        fst (load_from_cache read_at'
               (snd (load_from_cache read_at
                       (save_to_cache saved_at db cache_key G) cache_key))
               cache_key)
        = Some G).
Proof.
  unfold load_from_cache, save_to_cache.
  rewrite lookup_insert_eq. simpl. rewrite insert_insert_eq.
  split; [reflexivity|]. split.
  - intros other Hne. rewrite lookup_insert_ne by congruence. reflexivity.
  - intros read_at'. rewrite lookup_insert_eq. reflexivity.
Qed.

(** X3: A read renews the 24-hour access limit but not the 7-day download
    limit: after a hit at [read_at], a sweep at [sweep_at] keeps the record
    as long as it is at most 24 hours after the read and at most 7 days
    after the download, and removes it once 7 days have passed since the
    download, however recent the read. *)
Theorem load_renews_access_only (read_at sweep_at : Q)
    (db : gmap string Row) (cache_key : string) (row : Row) :
  db !! cache_key = Some row ->
  ((sweep_at - read_at <= 24 * 3600)%Q ->
   (sweep_at - download_time row <= 7 * 24 * 3600)%Q ->
   cleanup_cache sweep_at (snd (load_from_cache read_at db cache_key))
     !! cache_key
   = Some (mkRow (graph_blob row) (download_time row) read_at))
  /\ ((7 * 24 * 3600 < sweep_at - download_time row)%Q ->
      cleanup_cache sweep_at (snd (load_from_cache read_at db cache_key))
        !! cache_key
      = None).
Proof.
  intros Hrow. unfold load_from_cache. rewrite Hrow. simpl.
  set (row' := mkRow (graph_blob row) (download_time row) read_at).
  assert (Hl : (<[cache_key := row']> db) !! cache_key = Some row')
    by apply lookup_insert_eq.
  split.
  - intros Ha Hd. unfold cleanup_cache.
    apply map_lookup_filter_Some. split; [exact Hl|]. simpl.
    destruct (stale _ _ row') eqn:Hst; [|reflexivity].
    apply CacheFacts.stale_iff in Hst. simpl in Hst.
    exfalso. destruct Hst as [H|H]; lra.
  - intros Hd. unfold cleanup_cache.
    apply map_lookup_filter_None. right. intros r Hr.
    rewrite Hl in Hr. injection Hr as <-. simpl.
    assert (Hst : stale (sweep_at - inject_Z ACCESS_TTL_SECONDS)
                        (sweep_at - inject_Z DOWNLOAD_TTL_SECONDS) row'
                  = true).
    { apply CacheFacts.stale_iff. right. exact Hd. }
    rewrite Hst. discriminate.
Qed.

(** X4: Sweeps compose: a sweep after an earlier sweep leaves what the later
    sweep alone would leave; in particular a sweep repeated at the same
    time changes nothing more. *)
Theorem cleanup_cache_later_absorbs (earlier later : Q)
    (db : gmap string Row) :
  (earlier <= later)%Q ->
  cleanup_cache later (cleanup_cache earlier db) = cleanup_cache later db.
Proof.
  intros Hle. apply map_eq. intros k. unfold cleanup_cache.
  destruct (db !! k) as [row|] eqn:Hk.
  - destruct (stale (later - inject_Z ACCESS_TTL_SECONDS)
                    (later - inject_Z DOWNLOAD_TTL_SECONDS) row) eqn:Hlater.
    + transitivity (@None Row); [|symmetry];
        apply map_lookup_filter_None; right; intros r Hr.
      * apply map_lookup_filter_Some in Hr as [Hr _].
        rewrite Hk in Hr. injection Hr as <-. simpl. rewrite Hlater.
        discriminate.
      * rewrite Hk in Hr. injection Hr as <-. simpl. rewrite Hlater.
        discriminate.
    + assert (Hearlier :
        stale (earlier - inject_Z ACCESS_TTL_SECONDS)
              (earlier - inject_Z DOWNLOAD_TTL_SECONDS) row = false).
      { destruct (stale (earlier - _) (earlier - _) row) eqn:He;
          [|reflexivity].
        apply CacheFacts.stale_iff in He.
        assert (Hl : stale (later - inject_Z ACCESS_TTL_SECONDS)
                           (later - inject_Z DOWNLOAD_TTL_SECONDS) row
                     = true).
        { apply CacheFacts.stale_iff. destruct He as [H|H]; [left|right]; lra. }
        congruence. }
      transitivity (Some row); [|symmetry];
        apply map_lookup_filter_Some; (split; [|exact Hlater]).
      * apply map_lookup_filter_Some. split; [exact Hk|exact Hearlier].
      * exact Hk.
  - transitivity (@None Row); [|symmetry];
      apply map_lookup_filter_None; left; [|exact Hk].
    apply map_lookup_filter_None. left. exact Hk.
Qed.

Section SecondCall.

Variable float_str : Q -> string.


End SecondCall.

End CacheMore.

(** * Further properties of the graph mutators *)

Module UtilsMore.

Import Utils.

Lemma update_edge_lookup k f G i :
  edges (update_edge k f G) !! i
  = (fun e : EdgeKey * EdgeData =>
       if decide (fst e = k) then (fst e, f (snd e)) else e)
    <$> edges G !! i.
Proof. unfold update_edge. simpl. apply list_lookup_fmap. Qed.

Lemma update_edge_nodes k f G : nodes (update_edge k f G) = nodes G.
Proof. reflexivity. Qed.

Lemma set_state_loop_lookup s v u (ks : list Z) :
  forall G i key d,
    edges G !! i = Some (key, d) ->
    exists d',
      edges (fold_left (fun G' k => update_edge (v, u, k) (set_state s) G')
                       ks G) !! i = Some (key, d')
      /\ (d' = d \/ (d' = set_state s d /\ exists k', key = (v, u, k'))).
Proof.
  induction ks as [|k0 ks IH]; intros G i key d Hi; simpl.
  - exists d. auto.
  - assert (Hup :
      edges (update_edge (v, u, k0) (set_state s) G) !! i
      = Some (key, if decide (key = (v, u, k0)) then set_state s d else d)).
    { rewrite update_edge_lookup, Hi. simpl. case_decide; reflexivity. }
    destruct (decide (key = (v, u, k0))) as [->|Hne].
    + destruct (IH _ _ _ _ Hup) as (d' & Hd' & Hcase).
      exists d'. split; [exact Hd'|]. right. split; [|eauto].
      destruct Hcase as [->|[-> _]]; reflexivity.
    + destruct (IH _ _ _ _ Hup) as (d' & Hd' & Hcase).
      exists d'. auto.
Qed.

Lemma set_state_loop_nodes s v u (ks : list Z) :
  forall G,
    nodes (fold_left (fun G' k => update_edge (v, u, k) (set_state s) G')
                     ks G) = nodes G.
Proof.
  induction ks as [|k0 ks IH]; intros G; simpl; [reflexivity|].
  rewrite IH. reflexivity.
Qed.

Lemma edit_edge_lookup G m i key d :
  edges G !! i = Some (key, d) ->
  exists d',
    edges (edit_edge G m) !! i = Some (key, d')
    /\ (d' = d \/ (d' = set_state (em_state m) d /\ Measures.touches m key)).
Proof.
  intros Hi. unfold edit_edge, Measures.touches.
  set (G1 := if has_edge_key G (em_u m) (em_v m) (em_key m)
             then update_edge (em_u m, em_v m, em_key m)
                              (set_state (em_state m)) G
             else G).
  assert (H1 : exists d1,
             edges G1 !! i = Some (key, d1)
             /\ (d1 = d \/ (d1 = set_state (em_state m) d
                            /\ key = (em_u m, em_v m, em_key m)))).
  { unfold G1. destruct (has_edge_key G _ _ _); [|eauto].
    rewrite update_edge_lookup, Hi. simpl.
    destruct (decide (key = (em_u m, em_v m, em_key m))); eauto. }
  destruct H1 as (d1 & Hd1 & Hcase1).
  destruct (has_edge G1 (em_v m) (em_u m)).
  - destruct (set_state_loop_lookup (em_state m) (em_v m) (em_u m)
                (keys_between G1 (em_v m) (em_u m)) G1 i key d1 Hd1)
      as (d' & Hd' & Hcase).
    exists d'. split; [exact Hd'|].
    destruct Hcase1 as [->|[-> Hk]]; destruct Hcase as [->|[-> Hk']]; auto.
  - exists d1. split; [exact Hd1|].
    destruct Hcase1 as [->|[-> Hk]]; auto.
Qed.

Lemma edit_edge_nodes G m : nodes (edit_edge G m) = nodes G.
Proof.
  unfold edit_edge.
  destruct (has_edge_key G _ _ _); destruct (has_edge _ _ _);
    rewrite ?set_state_loop_nodes; reflexivity.
Qed.

(** X6: [edit_edges] changes nothing but states: the nodes and the list of
    edge keys stay as they are, and the data of an edge is either left
    alone or has its state set to that of a modification naming the edge
    or its reverse; length, geometry, travel cost and the other
    attributes are never touched. *)
Theorem edit_edges_changes_only_states (ms : list EdgeModification) :
  forall G : Graph,
    nodes (edit_edges G ms) = nodes G
    /\ map fst (edges (edit_edges G ms)) = map fst (edges G)
    /\ forall i key d,
         edges G !! i = Some (key, d) ->
         exists d',
           edges (edit_edges G ms) !! i = Some (key, d')
           /\ (d' = d
               \/ exists m,
                    m ∈ ms /\ Measures.touches m key
                    /\ d' = set_state (em_state m) d).
Proof.
  unfold edit_edges.
  induction ms as [|m ms IH]; intros G; simpl.
  - split; [reflexivity|]. split; [reflexivity|]. eauto.
  - destruct (IH (edit_edge G m)) as (Hn & Hk & Hd).
    split; [rewrite Hn; apply edit_edge_nodes|].
    split; [rewrite Hk; apply UtilsFacts.edit_edge_keys|].
    intros i key d Hi.
    destruct (edit_edge_lookup G m i key d Hi) as (d1 & Hd1 & Hcase1).
    destruct (Hd i key d1 Hd1) as (d' & Hd' & Hcase).
    exists d'. split; [exact Hd'|].
    destruct Hcase as [->|(m' & Hin & Ht & ->)].
    + destruct Hcase1 as [->|[-> Ht]]; [auto|].
      right. exists m. split; [left|auto].
    + right. exists m'. split; [right; exact Hin|]. split; [exact Ht|].
      destruct Hcase1 as [->|[-> _]]; reflexivity.
Qed.

(** X7: A modification whose target edge is missing is ignored only when no
    edge runs the other way: without reverse edges the graph is unchanged,
    but every existing reverse edge still takes the new state. *)
Theorem edit_edges_missing_target (G0 : Graph) (ms : list EdgeModification)
    (m : EdgeModification) :
  get_edge_data (edges (edit_edges G0 ms)) (em_u m, em_v m, em_key m)
  = None ->
  (keys_between (edit_edges G0 ms) (em_v m) (em_u m) = [] ->
   edit_edges G0 (ms ++ [m]) = edit_edges G0 ms)
  /\ (forall k' d',
        get_edge_data (edges (edit_edges G0 ms)) (em_v m, em_u m, k')
        = Some d' ->
        get_edge_data (edges (edit_edges G0 (ms ++ [m])))
                      (em_v m, em_u m, k')
        = Some (set_state (em_state m) d')).
Proof.
  intros Hnone. unfold edit_edges. rewrite fold_left_app. simpl.
  fold (edit_edges G0 ms). set (G := edit_edges G0 ms) in *.
  unfold edit_edge.
  assert (Hhas : has_edge_key G (em_u m) (em_v m) (em_key m) = false).
  { unfold has_edge_key. apply bool_decide_eq_false. rewrite Hnone.
    intros [x Hx]. discriminate. }
  rewrite Hhas. split.
  - intros Hk. unfold has_edge. rewrite Hk. reflexivity.
  - intros k' d' Hrev.
    pose proof (UtilsFacts.keys_between_in _ _ _ _ _ Hrev) as Hin.
    unfold has_edge.
    destruct (keys_between G (em_v m) (em_u m)) as [|k0 ks] eqn:Hks;
      [inversion Hin|].
    rewrite <- Hks in *.
    destruct (UtilsFacts.set_state_loop_get (em_state m) (em_v m) (em_u m)
                (keys_between G (em_v m) (em_u m)) G _ _ Hrev)
      as (e & He & _ & Hall).
    rewrite He, (Hall k' Hin eq_refl). reflexivity.
Qed.

Lemma get_edge_data_app es1 es2 k :
  get_edge_data (es1 ++ es2) k
  = match get_edge_data es1 k with
    | Some d => Some d
    | None => get_edge_data es2 k
    end.
Proof.
  induction es1 as [|[k0 d0] es1 IH]; simpl; [reflexivity|].
  destruct (decide (k0 = k)); [reflexivity|exact IH].
Qed.

Lemma get_edge_data_add_new G u v key attr k :
  get_edge_data (edges G) (u, v, key) = None ->
  get_edge_data (edges (add_edge G u v key attr)) k
  = if decide (k = (u, v, key)) then Some attr
    else get_edge_data (edges G) k.
Proof.
  intros Hnew. unfold add_edge. rewrite Hnew. simpl.
  rewrite get_edge_data_app. simpl.
  destruct (decide (k = (u, v, key))) as [->|Hne].
  - rewrite Hnew. destruct (decide ((u, v, key) = (u, v, key)));
      [reflexivity|contradiction].
  - destruct (get_edge_data (edges G) k); [reflexivity|].
    destruct (decide ((u, v, key) = k)); [congruence|reflexivity].
Qed.

Lemma add_edge_nodes G u v key attr :
  nodes (add_edge G u v key attr) = nodes G.
Proof. unfold add_edge. destruct (get_edge_data _ _); reflexivity. Qed.

Lemma get_edge_data_remove G u v key k :
  get_edge_data (edges (remove_edge G u v key)) k
  = if decide (k = (u, v, key)) then None else get_edge_data (edges G) k.
Proof.
  unfold remove_edge. simpl.
  induction (edges G) as [|[k0 d0] es IH].
  - simpl. destruct (decide _); reflexivity.
  - rewrite filter_cons. simpl.
    destruct (decide (k0 <> (u, v, key))) as [Hkeep|Hdrop]; simpl.
    + destruct (decide (k0 = k)) as [->|Hne].
      * destruct (decide (k = (u, v, key))); [contradiction|reflexivity].
      * exact IH.
    + apply dec_stable in Hdrop. subst k0. rewrite IH.
      destruct (decide (k = (u, v, key))) as [->|Hne]; [reflexivity|].
      destruct (decide ((u, v, key) = k)); [congruence|reflexivity].
Qed.

Section Split.

Variable haversine_distance : Q -> Q -> Q -> Q -> Q.
Variable project : LineString -> Q * Q -> Q.
Variable interpolate : LineString -> Q -> Q * Q.
Variable substring : LineString -> Q -> Q -> LineString.
Variable line_length : LineString -> Q.
Variable str_hash : Z -> Z -> Z -> Q -> Z.

Local Abbreviation split_edge_at_point :=
  (split_edge_at_point haversine_distance project interpolate substring
                       line_length str_hash).

(** A split either finds no edge and leaves the graph alone, or inserts
    one node, the one it returns. *)
Lemma split_edge_at_point_nodes now G u v key pt r G' :
  split_edge_at_point now G u v key pt = Ok (r, G') ->
  (r = None /\ G' = G)
  \/ exists id xy, r = Some id /\ nodes G' = <[id := xy]> (nodes G).
Proof.
  unfold Utils.split_edge_at_point.
  destruct (get_edge_data (edges G) (u, v, key)) as [data|].
  2:{ intros H. injection H as <- <-. auto. }
  intros H.
  repeat match type of H with
         | mbind _ ?r = Ok _ =>
             let x := fresh "x" in
             destruct r as [x|] eqn:?; simpl in H; [|discriminate H];
             try destruct x as [? ?]
         end.
  injection H as <- <-. right. eexists _, _. split; [reflexivity|].
  simpl. rewrite !add_edge_nodes. reflexivity.
Qed.


End Split.

Section Dedup.

Variable haversine_distance : Q -> Q -> Q -> Q -> Q.

Local Abbreviation within_tolerance := (within_tolerance haversine_distance).
Local Abbreviation merge_target := (merge_target haversine_distance).
Local Abbreviation find_duplicate := (find_duplicate haversine_distance).
Local Abbreviation dedup_step := (dedup_step haversine_distance).
Local Abbreviation deduplicate_nodes := (deduplicate_nodes haversine_distance).
Local Abbreviation well_separated :=
  (Measures.well_separated haversine_distance).

(** What one iteration of the outer loop does when it succeeds. *)
Lemma dedup_step_cases kept node kept' :
  dedup_step kept node = Ok kept' ->
  (Forall (fun e => within_tolerance node e = false) kept
   /\ kept' = kept ++ [node])
  \/ exists pre e post eu ec nc,
       kept = pre ++ e :: post
       /\ Forall (fun e' => within_tolerance node e' = false) pre
       /\ within_tolerance node e = true
       /\ nd_urgency e = Some eu /\ nd_count e = Some ec
       /\ nd_count node = Some nc
       /\ kept' = pre ++ mkNodeData (nd_id e) (nd_x e) (nd_y e) (nd_type e)
                          (Some (Z.max eu (default 0 (nd_urgency node))))
                          (Some (ec + nc))
                       :: post.
Proof.
  intros Hstep.
  destruct (Utils.merge_target haversine_distance node kept) as [e|] eqn:Ht.
  - right.
    destruct (UtilsFacts.merge_target_split _ _ _ _ Ht)
      as (pre & post & -> & Hpre & Hclose).
    unfold Utils.dedup_step in Hstep.
    rewrite (UtilsFacts.find_duplicate_first _ _ _ _ _ Hpre Hclose) in Hstep.
    destruct (merge_into e node) as [merged|err] eqn:Hm;
      simpl in Hstep; [|discriminate Hstep].
    injection Hstep as <-.
    destruct (UtilsFacts.merge_into_ok _ _ _ Hm)
      as (eu & ec & nc & Hu & Hc & Hn & ->).
    exists pre, e, post, eu, ec, nc. auto 10.
  - left. pose proof (UtilsFacts.merge_target_none _ _ _ Ht) as Hfar.
    split; [exact Hfar|].
    rewrite (UtilsFacts.dedup_step_keep _ _ _ Ht) in Hstep.
    injection Hstep as <-. reflexivity.
Qed.

(** Induction over a successful run of [deduplicate_nodes], one input
    point at a time. *)
Lemma deduplicate_nodes_run (P : list NodeData -> list NodeData -> Prop) :
  P [] [] ->
  (forall nodes kept node kept',
     deduplicate_nodes nodes = Ok kept -> P nodes kept ->
     dedup_step kept node = Ok kept' -> P (nodes ++ [node]) kept') ->
  forall nodes kept, deduplicate_nodes nodes = Ok kept -> P nodes kept.
Proof.
  intros Hnil Hstep nodes.
  induction nodes as [|node nodes IH] using rev_ind; intros kept Hrun.
  - injection Hrun as <-. exact Hnil.
  - rewrite UtilsFacts.deduplicate_nodes_snoc in Hrun.
    destruct (Utils.deduplicate_nodes haversine_distance nodes)
      as [kept0|err] eqn:H0; simpl in Hrun; [|discriminate Hrun].
    exact (Hstep nodes kept0 node kept H0 (IH kept0 eq_refl) Hrun).
Qed.

Lemma well_separated_snoc l node :
  well_separated l ->
  Forall (fun e => within_tolerance node e = false) l ->
  well_separated (l ++ [node]).
Proof.
  induction l as [|e l IH]; simpl; intros Hsep Hfar.
  - split; [constructor|exact I].
  - destruct Hsep as [He Hl]. apply Forall_cons in Hfar as [Hfe Hfl].
    split; [|exact (IH Hl Hfl)].
    apply Forall_app. split; [exact He|]. constructor; [exact Hfe|constructor].
Qed.

Lemma well_separated_places l l' :
  map (fun n => (nd_x n, nd_y n)) l = map (fun n => (nd_x n, nd_y n)) l' ->
  well_separated l -> well_separated l'.
Proof.
  revert l'. induction l as [|e l IH]; intros [|e' l'] Hmap; simpl in *;
    try discriminate; [auto|].
  injection Hmap as Hx Hy Hrest. intros [He Hl].
  split; [|exact (IH _ Hrest Hl)].
  clear IH Hl. revert l' Hrest.
  induction He as [|later l Hlater _ IHl]; intros [|later' l'] Hrest;
    simpl in *; try discriminate; constructor.
  - injection Hrest as Hx' Hy' _.
    unfold Utils.within_tolerance in *.
    rewrite <- Hx, <- Hy, <- Hx', <- Hy'. exact Hlater.
  - injection Hrest as _ _ Hrest. exact (IHl _ Hrest).
Qed.

(** X9: After a successful deduplication no kept point lies within 10 m of a
    kept point before it. *)
Theorem deduplicate_nodes_well_separated (nodes kept : list NodeData) :
  deduplicate_nodes nodes = Ok kept -> well_separated kept.
Proof.
  apply (deduplicate_nodes_run (fun _ kept => well_separated kept)).
  - exact I.
  - intros nodes0 kept0 node kept' _ Hsep Hstep.
    destruct (dedup_step_cases _ _ _ Hstep)
      as [[Hfar ->]|(pre & e & post & eu & ec & nc & -> & _ & _ & _ & _ & _
                     & ->)].
    + exact (well_separated_snoc _ _ Hsep Hfar).
    + revert Hsep. apply well_separated_places.
      rewrite !map_app. reflexivity.
Qed.

(** X10: The kept points are input points in their input order, with id,
    coordinates and kind unchanged; there are never more of them than
    inputs. *)
Theorem deduplicate_nodes_keeps_places (nodes kept : list NodeData) :
  deduplicate_nodes nodes = Ok kept ->
  sublist (map Measures.place kept) (map Measures.place nodes)
  /\ (length kept <= length nodes)%nat.
Proof.
  apply (deduplicate_nodes_run
           (fun nodes kept =>
              sublist (map Measures.place kept) (map Measures.place nodes)
              /\ (length kept <= length nodes)%nat)).
  - split; [constructor|reflexivity].
  - intros nodes0 kept0 node kept' _ [Hsub Hlen] Hstep.
    destruct (dedup_step_cases _ _ _ Hstep)
      as [[Hfar ->]|(pre & e & post & eu & ec & nc & -> & _ & _ & _ & _ & _
                     & ->)].
    + rewrite !map_app, !length_app. simpl. split; [|lia].
      apply sublist_app; [exact Hsub|reflexivity].
    + rewrite !map_app, !length_app in *. simpl in *. split; [|lia].
      transitivity (map Measures.place nodes0); [exact Hsub|].
      apply sublist_inserts_r. reflexivity.
Qed.


End Dedup.

Section Integrate.

Variable haversine_distance : Q -> Q -> Q -> Q -> Q.
Variable project : LineString -> Q * Q -> Q.
Variable interpolate : LineString -> Q -> Q * Q.
Variable substring : LineString -> Q -> Q -> LineString.
Variable line_length : LineString -> Q.
Variable str_hash : Z -> Z -> Z -> Q -> Z.
Variable nearest_edges : Q -> Q -> EdgeKey.
Variable time : nat -> Q.

Local Abbreviation split_edge_at_point :=
  (split_edge_at_point haversine_distance project interpolate substring
                       line_length str_hash).
Local Abbreviation integrate_step :=
  (integrate_step haversine_distance project interpolate substring
                  line_length str_hash nearest_edges time).
Local Abbreviation integrate_from :=
  (integrate_from haversine_distance project interpolate substring
                  line_length str_hash nearest_edges time).
Local Abbreviation integrate_nodes_into_graph :=
  (integrate_nodes_into_graph haversine_distance project interpolate
                              substring line_length str_hash nearest_edges
                              time).

Lemma split_grows_nodes now G u v key pt r G' :
  split_edge_at_point now G u v key pt = Ok (r, G') ->
  dom (nodes G) ⊆ dom (nodes G')
  /\ forall id, r = Some id -> id ∈ dom (nodes G').
Proof.
  intros H.
  destruct (split_edge_at_point_nodes _ _ _ _ _ _ _ _ _ _ _ _ _ _ H)
    as [[-> ->]|(id & xy & -> & Hn)].
  - split; [reflexivity|]. intros id Hid. discriminate.
  - rewrite Hn, dom_insert_L. split; [set_solver|].
    intros id' Hid'. injection Hid' as <-. set_solver.
Qed.

(** What one iteration of the loop of [integrate_nodes_into_graph] does
    when it succeeds: one mapping more, for this request, to a node of the
    graph; no node is lost. *)
Lemma integrate_step_records st node_req st' :
  integrate_step st node_req = Ok st' ->
  exists final_node_id,
    is_snapped st' = is_snapped st ++ [mkSnapped final_node_id node_req]
    /\ dom (nodes (is_graph st)) ⊆ dom (nodes (is_graph st'))
    /\ final_node_id ∈ dom (nodes (is_graph st')).
Proof.
  unfold Utils.integrate_step.
  destruct (nearest_edges (nd_x node_req) (nd_y node_req)) as [[u v] key].
  unfold node_xy at 1 2.
  destruct (nodes (is_graph st) !! u) as [[u_x u_y]|] eqn:Hu;
    simpl; [|intros H; discriminate H].
  destruct (nodes (is_graph st) !! v) as [[v_x v_y]|] eqn:Hv;
    simpl; [|intros H; discriminate H].
  assert (Hu' : u ∈ dom (nodes (is_graph st)))
    by (apply elem_of_dom; rewrite Hu; eauto).
  assert (Hv' : v ∈ dom (nodes (is_graph st)))
    by (apply elem_of_dom; rewrite Hv; eauto).
  destruct (Qltb _ 50).
  { intros H. injection H as <-. exists u. simpl. auto. }
  destruct (Qltb _ 50).
  { intros H. injection H as <-. exists v. simpl. auto. }
  destruct (String.eqb _ _).
  { intros H. injection H as <-. simpl.
    destruct (Qltb _ _); [exists u|exists v]; auto. }
  destruct (Utils.split_edge_at_point _ _ _ _ _ _ _ (is_graph st) u v key _)
    as [[new_id G1]|err] eqn:Hsplit; simpl; [|intros H; discriminate H].
  destruct (split_grows_nodes _ _ _ _ _ _ _ _ Hsplit) as [Hsub1 Hnew].
  match goal with
  | |- mbind _ ?r = _ -> _ =>
      destruct r as [[G2 ticks2]|err] eqn:Hrev; simpl;
        [|intros H; discriminate H]
  end.
  assert (Hsub2 : dom (nodes G1) ⊆ dom (nodes G2)).
  { destruct (has_edge G1 v u); [|injection Hrev as <- _; reflexivity].
    destruct (keys_between G1 v u) as [|rk rest];
      [injection Hrev as <- _; reflexivity|].
    destruct (Utils.split_edge_at_point _ _ _ _ _ _ _ G1 v u rk _)
      as [[rev_id G2']|err] eqn:Hsplit2; simpl in Hrev;
      [|discriminate Hrev].
    injection Hrev as <- _.
    exact (proj1 (split_grows_nodes _ _ _ _ _ _ _ _ Hsplit2)). }
  intros H. injection H as <-. simpl.
  eexists. split; [reflexivity|]. split; [set_solver|].
  destruct new_id as [id|]; [|set_solver].
  destruct (decide (id = 0)); [set_solver|].
  specialize (Hnew id eq_refl). set_solver.
Qed.

Lemma integrate_from_records (reqs : list NodeData) :
  forall st st',
    integrate_from st reqs = Ok st' ->
    map req (is_snapped st') = map req (is_snapped st) ++ reqs
    /\ dom (nodes (is_graph st)) ⊆ dom (nodes (is_graph st'))
    /\ (Forall (fun item => graph_id item ∈ dom (nodes (is_graph st)))
               (is_snapped st) ->
        Forall (fun item => graph_id item ∈ dom (nodes (is_graph st')))
               (is_snapped st')).
Proof.
  induction reqs as [|node reqs IH] using rev_ind; intros st st' Hrun.
  - injection Hrun as <-. rewrite app_nil_r. auto.
  - rewrite UtilsFacts.integrate_from_snoc in Hrun.
    destruct (Utils.integrate_from _ _ _ _ _ _ _ _ st reqs)
      as [st1|err] eqn:H1; simpl in Hrun; [|discriminate Hrun].
    destruct (IH _ _ H1) as (Hreq & Hsub & Hids).
    destruct (integrate_step_records _ _ _ Hrun)
      as (id & Hsnap & Hsub' & Hid).
    split; [|split].
    + rewrite Hsnap, map_app, Hreq, <- app_assoc. reflexivity.
    + etrans; [exact Hsub|exact Hsub'].
    + intros Hall. rewrite Hsnap. apply Forall_app. split.
      * eapply Forall_impl; [exact (Hids Hall)|].
        intros item Hitem. simpl in Hitem. apply Hsub'. exact Hitem.
      * constructor; [exact Hid|constructor].
Qed.

(** X12: A successful integration records exactly one mapping per request, in
    the order of the requests. *)
Theorem integrate_records_every_request (G G' : Graph)
    (nodes : list NodeData) (snapped_nodes : list Snapped) :
  integrate_nodes_into_graph G nodes = Ok (G', snapped_nodes) ->
  map req snapped_nodes = nodes.
Proof.
  unfold Utils.integrate_nodes_into_graph. intros H.
  destruct (Utils.integrate_from _ _ _ _ _ _ _ _ (mkIntState G [] 0) nodes)
    as [st|err] eqn:Hrun; simpl in H; [|discriminate H].
  injection H as <- <-.
  exact (proj1 (integrate_from_records _ _ _ Hrun)).
Qed.

(** X13: Integration never removes a node, and every node id it records is a
    node of the graph it returns. *)
Theorem integrate_records_graph_nodes (G G' : Graph)
    (nodes : list NodeData) (snapped_nodes : list Snapped) :
  integrate_nodes_into_graph G nodes = Ok (G', snapped_nodes) ->
  dom (Utils.nodes G) ⊆ dom (Utils.nodes G')
  /\ Forall (fun item => graph_id item ∈ dom (Utils.nodes G')) snapped_nodes.
Proof.
  unfold Utils.integrate_nodes_into_graph. intros H.
  destruct (Utils.integrate_from _ _ _ _ _ _ _ _ (mkIntState G [] 0) nodes)
    as [st|err] eqn:Hrun; simpl in H; [|discriminate H].
  injection H as <- <-.
  destruct (integrate_from_records _ _ _ Hrun) as (_ & Hsub & Hids).
  split; [exact Hsub|]. apply Hids. constructor.
Qed.

(** X14: Priority 2 of the snap policy: a point whose nearest edge is blocked
    and has no endpoint within 50 m is snapped to the nearer endpoint ([v]
    when the distances are equal), and the blocked edge is not split. *)
Theorem integrate_snaps_on_blocked_edge
    (G : Graph) (nodes_before : list NodeData) (node_req : NodeData)
    (st : IntState) (u v key : Z) (ux uy vx vy : Q) (d : EdgeData) :
  integrate_from (mkIntState G [] 0) nodes_before = Ok st ->
  nearest_edges (nd_x node_req) (nd_y node_req) = (u, v, key) ->
  nodes (is_graph st) !! u = Some (ux, uy) ->
  nodes (is_graph st) !! v = Some (vx, vy) ->
  get_edge_data (edges (is_graph st)) (u, v, key) = Some d ->
  attr_state d = Some "blocked"%string ->
  (50 <= haversine_distance (nd_y node_req) (nd_x node_req) uy ux)%Q ->
  (50 <= haversine_distance (nd_y node_req) (nd_x node_req) vy vx)%Q ->
  integrate_nodes_into_graph G (nodes_before ++ [node_req])
  = Ok (is_graph st,
        is_snapped st
        ++ [mkSnapped
              (if Qltb (haversine_distance (nd_y node_req) (nd_x node_req)
                          uy ux)
                       (haversine_distance (nd_y node_req) (nd_x node_req)
                          vy vx)
               then u else v)
              node_req]).
Proof.
  intros Hbefore Hnear Hu Hv Hd Hblocked Hfar_u Hfar_v.
  unfold Utils.integrate_nodes_into_graph.
  rewrite UtilsFacts.integrate_from_snoc, Hbefore. simpl.
  unfold Utils.integrate_step, node_xy. rewrite Hnear, Hu, Hv. simpl.
  apply Qltb_ge in Hfar_u. apply Qltb_ge in Hfar_v.
  rewrite Hfar_u, Hfar_v.
  assert (Hstate : edge_state (is_graph st) u v key = "blocked"%string).
  { unfold edge_state. rewrite Hd. unfold dict_nonempty.
    rewrite Hblocked. simpl. rewrite !orb_true_r. simpl.
    rewrite Hblocked. reflexivity. }
  rewrite Hstate. reflexivity.
Qed.

End Integrate.

End UtilsMore.

(** * Further properties of the dispatch *)

Module RouterMore.

Import Router.

Section Routes.

Variable shortest_path_length : Z -> Z -> option Q.
Variable shortest_path : Z -> Z -> list Z.

Local Abbreviation select_best := (select_best shortest_path_length).
Local Abbreviation assign := (assign shortest_path).
Local Abbreviation assign_loop :=
  (assign_loop shortest_path_length shortest_path).
Local Abbreviation finish := (finish shortest_path_length shortest_path).
Local Abbreviation solve_routes :=
  (solve_routes shortest_path_length shortest_path).

(** Vehicle [i] started at pickup [i], and its path still starts there. *)
Local Abbreviation based_at :=
  (fun (pickups_ids : list Z) (vec : list Vehicle) =>
     length vec = length pickups_ids
     /\ forall i vehicle,
          vec !! i = Some vehicle ->
          exists p, pickups_ids !! i = Some p
                    /\ head (path vehicle) = Some p).

Lemma init_vehicles_based pickups_ids :
  based_at pickups_ids (init_vehicles pickups_ids).
Proof.
  unfold init_vehicles. split; [apply length_imap|].
  intros i vehicle Hi. rewrite list_lookup_imap in Hi.
  destruct (pickups_ids !! i) as [p|]; simpl in Hi; [|discriminate].
  injection Hi as <-. exists p. auto.
Qed.

Lemma head_app_some {A} (l l' : list A) x :
  head l = Some x -> head (l ++ l') = Some x.
Proof. destruct l; [discriminate|auto]. Qed.

Lemma assign_based pickups_ids vec rem b vec' rem' :
  based_at pickups_ids vec ->
  assign vec rem b = Ok (vec', rem') ->
  based_at pickups_ids vec'.
Proof.
  intros [Hlen Hhead] Ha. unfold Router.assign in Ha.
  destruct (vec !! best_vehicle_idx b) as [winner|] eqn:Hw;
    [|discriminate Ha].
  destruct (rem !! best_survivor_idx b) as [target|]; [|discriminate Ha].
  injection Ha as <- _. split; [rewrite length_insert; exact Hlen|].
  intros i vehicle Hi.
  destruct (decide (i = best_vehicle_idx b)) as [->|Hne].
  - rewrite list_lookup_insert_eq in Hi by (eapply lookup_lt_Some; eauto).
    injection Hi as <-. simpl.
    destruct (Hhead _ _ Hw) as (p & Hp & Hh). exists p. split; [exact Hp|].
    destruct (decide _); [apply head_app_some|]; exact Hh.
  - rewrite list_lookup_insert_ne in Hi by congruence. eauto.
Qed.

Lemma assign_loop_based pickups_ids fuel :
  forall vec rem vec' rem',
    based_at pickups_ids vec ->
    assign_loop fuel vec rem = Some (Ok (vec', rem')) ->
    based_at pickups_ids vec'.
Proof.
  induction fuel as [|fuel IH]; intros vec rem vec' rem' Hb Hrun.
  - destruct rem; simpl in Hrun; [|discriminate].
    injection Hrun as <- _. exact Hb.
  - destruct rem as [|s rem]; simpl in Hrun.
    { injection Hrun as <- _. exact Hb. }
    destruct (Router.select_best _ vec (s :: rem)) as [[b|]|err];
      [| injection Hrun as <- _; exact Hb | discriminate].
    destruct (Router.assign _ vec (s :: rem) b) as [[vec1 rem1]|err] eqn:Ha;
      [|discriminate].
    exact (IH _ _ _ _ (assign_based _ _ _ _ _ _ Hb Ha) Hrun).
Qed.

Lemma finish_routes pickups_ids vec :
  based_at pickups_ids vec ->
  (length (finish pickups_ids vec) <= length vec)%nat
  /\ Forall (fun route =>
               (2 <= length route)%nat
               /\ exists p, p ∈ pickups_ids /\ head route = Some p)
            (finish pickups_ids vec).
Proof.
  intros [_ Hhead]. unfold Router.finish.
  assert (Hall : forall vehicle, vehicle ∈ vec ->
            exists p, p ∈ pickups_ids /\ head (path vehicle) = Some p).
  { intros vehicle Hin. apply list_elem_of_lookup_1 in Hin as [i Hi].
    destruct (Hhead _ _ Hi) as (p & Hp & Hh). exists p.
    split; [eapply list_elem_of_lookup_2; exact Hp|exact Hh]. }
  clear Hhead. induction vec as [|vehicle vec IH]; simpl.
  - split; [lia|constructor].
  - destruct IH as [IHlen IHall].
    { intros v Hv. apply Hall. right. exact Hv. }
    destruct (decide (length (path vehicle) <= 1)%nat) as [Hshort|Hlong];
      simpl.
    + split; [apply Nat.le_trans with (length vec); [exact IHlen|lia]
             |exact IHall].
    + split; [apply le_n_S; exact IHlen|]. constructor; [|exact IHall].
      destruct (Hall vehicle) as (p & Hp & Hh); [left|].
      destruct (decide _).
      * split; [rewrite length_app; lia|].
        exists p. split; [exact Hp|apply head_app_some; exact Hh].
      * split; [lia|]. exists p. auto.
Qed.

End Routes.

Lemma solve_routes_based_routes
    (shortest_path_length : Z -> Z -> option Q)
    (shortest_path : Z -> Z -> list Z)
    (survivors : list Snapped) (pickups_ids : list Z)
    (routes : list (list Z)) :
  solve_routes shortest_path_length shortest_path survivors pickups_ids
  = Some (Ok routes) ->
  (length routes <= length pickups_ids)%nat
  /\ Forall (fun route =>
               (2 <= length route)%nat
               /\ exists p, p ∈ pickups_ids /\ head route = Some p)
            routes.
Proof.
  unfold solve_routes. intros H.
  destruct (assign_loop shortest_path_length shortest_path
              (length survivors) (init_vehicles pickups_ids) survivors)
    as [[[vec rem]|err]|] eqn:Hloop; [|discriminate|discriminate].
  injection H as <-.
  pose proof (assign_loop_based shortest_path_length shortest_path
                pickups_ids _ _ _ _ _
                (init_vehicles_based pickups_ids) Hloop) as Hb.
  destruct (finish_routes shortest_path_length shortest_path _ _ Hb)
    as [Hlen Hall].
  split; [|exact Hall]. destruct Hb as [Hl _]. lia.
Qed.

(** X15: [solve_routes] returns at most one route per pickup; every route it
    returns has at least two nodes and starts at one of the pickups. *)
Theorem solve_routes_routes_start_at_pickups
    (shortest_path_length : Z -> Z -> option Q)
    (shortest_path : Z -> Z -> list Z)
    (survivors : list Snapped) (pickups_ids : list Z)
    (routes : list (list Z)) :
  solve_routes shortest_path_length shortest_path survivors pickups_ids
  = Some (Ok routes) ->
  (length routes <= length pickups_ids)%nat
  /\ Forall (fun route =>
               (2 <= length route)%nat
               /\ exists p, p ∈ pickups_ids /\ head route = Some p)
            routes.
Proof. apply solve_routes_based_routes. Qed.

(** X16: A survivor standing on a pickup's own node is skipped by that
    pickup's vehicle: when every survivor is, for every pickup, either on
    the pickup's node or out of its reach, no route is produced. *)
Theorem solve_routes_skips_survivors_at_pickups
    (shortest_path_length : Z -> Z -> option Q)
    (shortest_path : Z -> Z -> list Z)
    (survivors : list Snapped) (pickups_ids : list Z) :
  (forall p s, p ∈ pickups_ids -> s ∈ survivors ->
     p = graph_id s \/ shortest_path_length p (graph_id s) = None) ->
  solve_routes shortest_path_length shortest_path survivors pickups_ids
  = Some (Ok []).
Proof.
  intros Hskip. unfold solve_routes.
  assert (Hsel : select_best shortest_path_length
                   (init_vehicles pickups_ids) survivors = Ok None).
  { unfold select_best. apply rfoldi_unchanged. intros j vehicle Hv.
    apply rfoldi_unchanged. intros k s Hs. unfold consider.
    destruct (decide (current_node vehicle = graph_id s)); [reflexivity|].
    apply list_elem_of_lookup_2 in Hv, Hs.
    destruct (RouterFacts.init_vehicles_elem _ _ Hv) as [Hp _].
    destruct (Hskip _ _ Hp Hs) as [Heq|Hnone]; [contradiction|].
    rewrite Hnone. reflexivity. }
  assert (Hloop :
    assign_loop shortest_path_length shortest_path (length survivors)
                (init_vehicles pickups_ids) survivors
    = Some (Ok (init_vehicles pickups_ids, survivors))).
  { destruct survivors as [|s0 rest]; [reflexivity|].
    simpl length. cbn [assign_loop]. rewrite Hsel. reflexivity. }
  rewrite Hloop. f_equal. f_equal.
  apply RouterFacts.finish_unused. intros vehicle Hv.
  apply (RouterFacts.init_vehicles_elem _ _ Hv).
Qed.

End RouterMore.

(** * Further properties of the routing preparation *)

Module MainMore.

Import Utils Main.

Lemma aggregate_spec (survivors_map : list Snapped) (item : Snapped) :
  forall survivors_map',
    aggregate survivors_map item = Ok survivors_map' ->
    NoDup (map graph_id survivors_map) ->
    NoDup (map graph_id survivors_map')
    /\ (forall g, g ∈ map graph_id survivors_map'
                  <-> g ∈ map graph_id survivors_map \/ g = graph_id item)
    /\ Measures.entries_count survivors_map'
       = Measures.entries_count survivors_map
         + default 0 (nd_count (req item)).
Proof.
  induction survivors_map as [|entry rest IH]; intros m' Hagg Hnd;
    simpl in Hagg.
  - injection Hagg as <-. simpl. split.
    + apply NoDup_singleton.
    + split; [|lia]. intros g. rewrite list_elem_of_singleton.
      split; [auto|]. intros [H|H]; [inversion H|exact H].
  - simpl in Hnd. apply NoDup_cons in Hnd as [Hnotin Hnd].
    destruct (decide (graph_id entry = graph_id item)) as [Heq|Hne].
    + destruct (nd_urgency (req entry)) as [eu|]; [|discriminate Hagg].
      destruct (nd_urgency (req item)) as [urg|]; [|discriminate Hagg].
      destruct (nd_count (req entry)) as [ec|] eqn:Hec;
        [|discriminate Hagg].
      destruct (nd_count (req item)) as [cnt|] eqn:Hcnt;
        [|discriminate Hagg].
      injection Hagg as <-. simpl. rewrite Hec. simpl. split.
      * apply NoDup_cons. auto.
      * split; [|lia]. intros g. rewrite !elem_of_cons, <- Heq. tauto.
    + destruct (aggregate rest item) as [rest'|err] eqn:Hrest;
        simpl in Hagg; [|discriminate Hagg].
      injection Hagg as <-.
      destruct (IH _ eq_refl Hnd) as (Hnd' & Hin & Hcount).
      simpl. split; [|split].
      * apply NoDup_cons. split; [|exact Hnd'].
        rewrite Hin. intros [H|H]; [contradiction|congruence].
      * intros g. rewrite !elem_of_cons, Hin. tauto.
      * rewrite Hcount. lia.
Qed.

Lemma survivors_of_spec (snapped_data : list Snapped) :
  forall survivors_data,
    survivors_of snapped_data = Ok survivors_data ->
    NoDup (map graph_id survivors_data)
    /\ (forall g, g ∈ map graph_id survivors_data
                  <-> g ∈ Measures.survivor_nodes snapped_data)
    /\ Measures.entries_count survivors_data
       = Measures.survivors_count snapped_data.
Proof.
  unfold survivors_of.
  induction snapped_data as [|item snapped_data IH] using rev_ind;
    intros data Hrun.
  - injection Hrun as <-. simpl. split; [apply NoDup_nil_2|].
    split; [reflexivity|reflexivity].
  - rewrite rfoldi_app in Hrun.
    destruct (rfoldi _ 0 snapped_data []) as [data0|err] eqn:H0;
      simpl in Hrun; [|discriminate Hrun].
    destruct (IH _ eq_refl) as (Hnd & Hin & Hcount).
    assert (Hsn : Measures.survivor_nodes (snapped_data ++ [item])
                  = Measures.survivor_nodes snapped_data
                    ++ match nd_type (req item) with
                       | SURVIVOR => [graph_id item]
                       | PICKUP => []
                       end).
    { unfold Measures.survivor_nodes. rewrite omap_app. simpl.
      destruct (nd_type (req item)); reflexivity. }
    assert (Hsc : Measures.survivors_count (snapped_data ++ [item])
                  = Measures.survivors_count snapped_data
                    + match nd_type (req item) with
                      | SURVIVOR => default 0 (nd_count (req item))
                      | PICKUP => 0
                      end).
    { unfold Measures.survivors_count. clear.
      induction snapped_data as [|a l IHl]; simpl.
      - destruct (nd_type (req item)); lia.
      - rewrite IHl. destruct (nd_type (req a)); lia. }
    rewrite Hsn, Hsc.
    destruct (nd_type (req item)).
    + destruct (aggregate data0 item) as [data1|err] eqn:Hagg;
        simpl in Hrun; [|discriminate Hrun].
      injection Hrun as <-.
      destruct (aggregate_spec _ _ _ Hagg Hnd) as (Hnd1 & Hin1 & Hcount1).
      split; [exact Hnd1|]. split.
      * intros g. rewrite Hin1, Hin, elem_of_app, list_elem_of_singleton.
        tauto.
      * rewrite Hcount1, Hcount. reflexivity.
    + simpl in Hrun. injection Hrun as <-.
      split; [exact Hnd|]. split.
      * intros g. rewrite Hin, app_nil_r. tauto.
      * rewrite Hcount. lia.
Qed.

(** X17: The survivors handed to the solver: no two of them share a graph
    node, their nodes are exactly the nodes of the survivor requests, and
    their counts add up to the counts of those requests. *)
Theorem survivors_of_one_per_node (snapped_data survivors_data : list Snapped) :
  survivors_of snapped_data = Ok survivors_data ->
  NoDup (map graph_id survivors_data)
  /\ (forall g, g ∈ map graph_id survivors_data
                <-> g ∈ Measures.survivor_nodes snapped_data)
  /\ Measures.survivors_count survivors_data
     = Measures.survivors_count snapped_data
  /\ Forall (fun item => nd_type (req item) = SURVIVOR) survivors_data.
Proof.
  intros Hrun.
  assert (Hsurv : Forall (fun item => nd_type (req item) = SURVIVOR)
                         survivors_data).
  { revert survivors_data Hrun. unfold survivors_of.
    induction snapped_data as [|item snapped_data IH] using rev_ind;
      intros data Hrun.
    - injection Hrun as <-. constructor.
    - rewrite rfoldi_app in Hrun.
      destruct (rfoldi _ 0 snapped_data []) as [data0|err] eqn:H0;
        simpl in Hrun; [|discriminate Hrun].
      specialize (IH _ eq_refl).
      destruct (nd_type (req item)) eqn:Hty.
      + destruct (aggregate data0 item) as [data1|err] eqn:Hagg;
          simpl in Hrun; [|discriminate Hrun].
        injection Hrun as <-. clear H0. revert data1 Hagg.
        induction IH as [|entry rest Hentry Htail IHrest]; intros data1 Hagg;
          simpl in Hagg.
        * injection Hagg as <-. constructor; [exact Hty|constructor].
        * destruct (decide (graph_id entry = graph_id item)).
          -- destruct (nd_urgency (req entry)); [|discriminate Hagg].
             destruct (nd_urgency (req item)); [|discriminate Hagg].
             destruct (nd_count (req entry)); [|discriminate Hagg].
             destruct (nd_count (req item)); [|discriminate Hagg].
             injection Hagg as <-. constructor; [exact Hentry|exact Htail].
          -- destruct (aggregate rest item) as [rest'|err] eqn:Hrest;
               simpl in Hagg; [|discriminate Hagg].
             injection Hagg as <-. constructor; [exact Hentry|].
             exact (IHrest _ eq_refl).
      + simpl in Hrun. injection Hrun as <-. exact IH. }
  destruct (survivors_of_spec _ _ Hrun) as (Hnd & Hin & Hcount).
  split; [exact Hnd|]. split; [exact Hin|]. split; [|exact Hsurv].
  rewrite <- Hcount. clear -Hsurv.
  induction Hsurv as [|item rest Hty _ IH]; simpl; [reflexivity|].
  rewrite Hty, IH. reflexivity.
Qed.

Lemma state_multiplier_cases d :
  state_multiplier d = 10000%Q \/ state_multiplier d = 5%Q
  \/ state_multiplier d = 1%Q.
Proof.
  unfold state_multiplier.
  destruct (String.eqb _ "blocked"); [auto|].
  destruct (String.eqb _ "partial"); auto.
Qed.

(** The cost given to the edge at position [i], on each of the paths of
    the cost assignment. *)
Lemma assign_travel_costs_lookup
    (rescunet_model : option (Graph -> option (list Q))) (G : Graph)
    i key d :
  NoDup (map fst (edges G)) ->
  edges G !! i = Some (key, d) ->
  exists c,
    edges (assign_travel_costs rescunet_model G) !! i
    = Some (key, set_travel_cost c d)
    /\ (c == edge_length d * state_multiplier d
             * discount_of rescunet_model G i)%Q.
Proof.
  intros Hnd Hi.
  assert (Hstd : forall G0 : Graph,
            map (fun e : EdgeKey * EdgeData =>
                   (fst e,
                    set_travel_cost
                      (edge_length (snd e) * state_multiplier (snd e))%Q
                      (snd e))) (edges G0)
            = map (fun e : EdgeKey * EdgeData =>
                     (fst e,
                      set_travel_cost
                        (edge_length (snd e) * state_multiplier (snd e))%Q
                        (snd e))) (edges G) ->
            exists c,
              edges (standard_weights G0) !! i
              = Some (key, set_travel_cost c d)
              /\ (c == edge_length d * state_multiplier d * 1)%Q).
  { intros G0 He. rewrite MainFacts.standard_weights_edges, He.
    eexists. split; [rewrite list_lookup_fmap, Hi; reflexivity|].
    simpl. rewrite Qmult_1_r. reflexivity. }
  unfold assign_travel_costs, discount_of.
  destruct rescunet_model as [predict|]; [|exact (Hstd G eq_refl)].
  destruct (predict G) as [probs|]; [|exact (Hstd G eq_refl)].
  destruct (decide (length (edges G) <= length probs)%nat) as [Hle|Hgt].
  - destruct (MainFacts.neural_weights_complete probs (edges G) [] 0%nat G
                eq_refl Hnd Hle) as (G' & Hrun & _ & He).
    rewrite Hrun. simpl in He.
    rewrite He, (MainFacts.discounted_lookup _ _ _ _ _ _ Hi). simpl.
    destruct (probs !! i) as [p|] eqn:Hp.
    + eexists. split; [reflexivity|]. unfold neural_discount.
      rewrite (Qmult_comm p). reflexivity.
    + apply lookup_ge_None in Hp. apply lookup_lt_Some in Hi. lia.
  - pose proof (MainFacts.neural_weights_short probs (map fst (edges G))
                  0%nat G) as Hs.
    rewrite length_map in Hs. specialize (Hs ltac:(simpl; lia) ltac:(lia)).
    pose proof (MainFacts.neural_weights_standard (map fst (edges G)) probs
                  0%nat G) as [He _].
    destruct (neural_weights (map fst (edges G)) probs 0 G) as [G' ok].
    simpl in *. subst ok. exact (Hstd G' He).
Qed.


(** X19: What the dispatch of [infer_routes] returns comes from the pickup
    requests: every route starts at the graph node of one of them, and
    there is at most one route per pickup request. *)
Theorem route_starts_at_pickup_requests
    (shortest_path_length : Z -> Z -> option Q)
    (shortest_path : Z -> Z -> list Z)
    (snapped_data : list Snapped) (routes : list (list Z)) :
  route shortest_path_length shortest_path snapped_data = Some (Ok routes) ->
  (length routes <= length (pickups_ids_of snapped_data))%nat
  /\ Forall (fun r =>
               exists item,
                 item ∈ snapped_data /\ nd_type (req item) = PICKUP
                 /\ head r = Some (graph_id item))
            routes.
Proof.
  unfold route, require_pickups. intros H.
  destruct (pickups_ids_of snapped_data) as [|p0 ps] eqn:Hp;
    [discriminate H|].
  destruct (survivors_of snapped_data) as [survivors_data|err];
    [|discriminate H].
  destruct (RouterMore.solve_routes_based_routes _ _ _ _ _ H)
    as [Hlen Hall].
  split; [exact Hlen|].
  eapply Forall_impl; [exact Hall|].
  intros r (_ & p & Hin & Hhead). simpl in Hhead.
  rewrite <- Hp in Hin. unfold pickups_ids_of in Hin.
  apply list_elem_of_omap in Hin as (item & Hitem & Hsome).
  exists item. split; [exact Hitem|].
  destruct (nd_type (req item)); [discriminate Hsome|].
  injection Hsome as <-. auto.
Qed.

Lemma aggregate_has_people (survivors_map : list Snapped) (item : Snapped) :
  Forall Measures.has_people survivors_map ->
  Measures.has_people item ->
  exists survivors_map',
    aggregate survivors_map item = Ok survivors_map'
    /\ Forall Measures.has_people survivors_map'.
Proof.
  intros Hmap (urg & cnt & Hurg & Hcnt & Hpos).
  induction Hmap as [|entry rest (eu & ec & Heu & Hec & Hepos) Hrest IH];
    simpl.
  - eexists. split; [reflexivity|]. repeat constructor.
    exists urg, cnt. auto.
  - case_decide.
    + rewrite Heu, Hurg, Hec, Hcnt. eexists. split; [reflexivity|].
      constructor; [|exact Hrest].
      exists (Z.max eu urg), (ec + cnt). simpl.
      split; [reflexivity|]. split; [reflexivity|lia].
    + destruct IH as (rest' & -> & Hrest'). simpl.
      eexists. split; [reflexivity|]. constructor; [|exact Hrest'].
      exists eu, ec. auto.
Qed.

Lemma survivors_of_has_people (snapped_data : list Snapped) :
  Forall (fun item => nd_type (req item) = SURVIVOR ->
                      Measures.has_people item) snapped_data ->
  exists survivors_data,
    survivors_of snapped_data = Ok survivors_data
    /\ Forall Measures.has_people survivors_data.
Proof.
  unfold survivors_of.
  induction snapped_data as [|item snapped_data IH] using rev_ind;
    intros Hall.
  - exists []. split; [reflexivity|constructor].
  - apply Forall_app in Hall as [Hall Hitem].
    apply Forall_cons_1 in Hitem as [Hitem _].
    destruct (IH Hall) as (data0 & Hrun & Hdata0).
    rewrite rfoldi_app, Hrun. simpl.
    destruct (nd_type (req item)).
    + destruct (aggregate_has_people data0 item Hdata0 (Hitem eq_refl))
        as (data1 & -> & Hdata1).
      simpl. eauto.
    + simpl. eauto.
Qed.

Lemma has_people_scorable (item : Snapped) :
  Measures.has_people item -> Router.scorable item.
Proof.
  intros (u & c & Hu & Hc & Hpos). exists u, c.
  split; [exact Hu|]. split; [exact Hc|]. nia.
Qed.


End MainMore.

(** * Properties of the text helpers *)

Module TextMore.

Import Text.

Lemma lookup_repeat {A} (x : A) n i :
  (i < n)%nat -> repeat x n !! i = Some x.
Proof.
  revert i. induction n as [|n IH]; intros i Hi; [lia|].
  destruct i as [|i]; simpl; [reflexivity|]. apply IH. lia.
Qed.

(** X21: For a non-negative [max_len] the token list has exactly [max_len]
    entries: the indices of the first [max_len] words, an unknown word
    getting the index of [<UNK>] (1 if the vocabulary has none), followed by
    the index of [<PAD>] (0 if the vocabulary has none) up to [max_len]. *)
Theorem tokenize_words_pads_or_truncates
    (words : list string) (vocab : gmap string Z) (max_len : Z) :
  0 <= max_len ->
  length (tokenize_words words vocab max_len) = Z.to_nat max_len
  /\ (forall i word,
        (i < Z.to_nat max_len)%nat -> words !! i = Some word ->
        tokenize_words words vocab max_len !! i
        = Some (default (default 1 (vocab !! "<UNK>"%string))
                        (vocab !! word)))
  /\ (forall i,
        (length words <= i < Z.to_nat max_len)%nat ->
        tokenize_words words vocab max_len !! i
        = Some (default 0 (vocab !! "<PAD>"%string))).
Proof.
  intros Hmax. unfold tokenize_words. rewrite length_map.
  set (unk := default 1 (vocab !! "<UNK>"%string)).
  set (indices := map (fun word => default unk (vocab !! word)) words).
  assert (Hlen : length indices = length words) by apply length_map.
  assert (Hidx : forall i word, words !! i = Some word ->
                   indices !! i = Some (default unk (vocab !! word))).
  { intros i word Hw. unfold indices.
    change (map ?f ?l) with (f <$> l). rewrite list_lookup_fmap, Hw.
    reflexivity. }
  destruct (Z.of_nat (length words) <? max_len) eqn:Hlt.
  - apply Z.ltb_lt in Hlt. split; [|split].
    + rewrite length_app, repeat_length, Hlen. lia.
    + intros i word Hi Hw. rewrite lookup_app_l.
      * exact (Hidx _ _ Hw).
      * rewrite Hlen. eapply lookup_lt_Some. exact Hw.
    + intros i [Hge Hi]. rewrite lookup_app_r by (rewrite Hlen; exact Hge).
      apply lookup_repeat. rewrite Hlen. lia.
  - apply Z.ltb_ge in Hlt.
    assert (H0 : (0 <=? max_len) = true) by (apply Z.leb_le; exact Hmax).
    rewrite H0. split; [|split].
    + rewrite length_take, Hlen. lia.
    + intros i word Hi Hw. rewrite lookup_take_lt by exact Hi.
      exact (Hidx _ _ Hw).
    + intros i [Hge Hi]. lia.
Qed.

(** X22: The triage is monotone: a higher confidence never gets a lower
    priority; a report is taken for real exactly above 0.65, and only
    reports not taken for real are to be ignored. *)
Theorem triage_is_monotone (c1 c2 : Q) :
  (c1 <= c2)%Q ->
  (priority_rank (snd (triage c1)) <= priority_rank (snd (triage c2)))%nat
  /\ (fst (triage c1) = "REAL DISASTER"%string <-> (65 # 100 < c1)%Q)
  /\ (priority_rank (snd (triage c1)) = 0%nat
      <-> fst (triage c1) = "FAKE/ABSURD"%string).
Proof.
  intros Hle.
  assert (Hrank : forall c,
            priority_rank (snd (triage c))
            = if Qltb (65 # 100) c
              then if Qltb (85 # 100) c then 3%nat
                   else if Qltb (70 # 100) c then 2%nat else 1%nat
              else 0%nat).
  { intros c. unfold triage, CONFIDENCE_THRESHOLD.
    destruct (Qltb (65 # 100) c); [|reflexivity].
    destruct (Qltb (85 # 100) c); [reflexivity|].
    destruct (Qltb (70 # 100) c); reflexivity. }
  assert (Hreal : forall c,
            fst (triage c)
            = if Qltb (65 # 100) c then "REAL DISASTER"%string
              else "FAKE/ABSURD"%string).
  { intros c. unfold triage, CONFIDENCE_THRESHOLD.
    destruct (Qltb (65 # 100) c); reflexivity. }
  rewrite !Hrank, !Hreal. split; [|split].
  - destruct (Qltb (65 # 100) c1) eqn:H1;
      destruct (Qltb (85 # 100) c1) eqn:H2;
      destruct (Qltb (70 # 100) c1) eqn:H3;
      destruct (Qltb (65 # 100) c2) eqn:H4;
      destruct (Qltb (85 # 100) c2) eqn:H5;
      destruct (Qltb (70 # 100) c2) eqn:H6;
      try lia;
      repeat match goal with
             | H : Qltb _ _ = true |- _ => apply Qltb_lt in H
             | H : Qltb _ _ = false |- _ => apply Qltb_ge in H
             end;
      exfalso; lra.
  - destruct (Qltb (65 # 100) c1) eqn:H1.
    + apply Qltb_lt in H1. tauto.
    + apply Qltb_ge in H1. split; [discriminate|].
      intros H. exfalso. lra.
  - destruct (Qltb (65 # 100) c1); [|tauto].
    split; [|discriminate].
    destruct (Qltb (85 # 100) c1); [discriminate|].
    destruct (Qltb (70 # 100) c1); discriminate.
Qed.

End TextMore.

(** * The further properties at concrete inputs *)

Module MoreWitnesses.

Import Utils.

(** X3: a record of the street read at 1000 s and swept at 2000 s. *)
Lemma load_renews_access_only_witness :
  let row := Cache.mkRow Scenario.street 0 0 in
  let db : gmap string Cache.Row := <["k"%string := row]> ∅ in
  db !! "k"%string = Some row
  /\ Cache.cleanup_cache 2000
       (snd (Cache.load_from_cache 1000 db "k"%string)) !! "k"%string
     = Some (Cache.mkRow Scenario.street 0 1000).
Proof.
  intros row db. split; [reflexivity|].
  apply (proj1 (CacheMore.load_renews_access_only
                  1000 2000 db "k"%string row eq_refl));
    vm_compute; discriminate.
Defined.

(** X4, at a concrete input. *)
Lemma cleanup_cache_later_absorbs_witness :
  let db : gmap string Cache.Row :=
    <["old"%string := Cache.mkRow Scenario.street 0 0]>
      (<["fresh"%string := Cache.mkRow Scenario.avenue 80000 86400]> ∅) in
  (90000 <= 700000)%Q
  /\ Cache.cleanup_cache 700000 (Cache.cleanup_cache 90000 db)
     = Cache.cleanup_cache 700000 db.
Proof.
  intros db. split; [lra|].
  apply (CacheMore.cleanup_cache_later_absorbs 90000 700000 db). lra.
Defined.


(** X7: blocking the missing edge (1, 2, 5) of the avenue blocks the edges
    from 2 to 1. *)
Lemma edit_edges_missing_target_witness :
  let m := mkEdgeModification 1 2 5 "blocked" in
  get_edge_data (edges (edit_edges Scenario.avenue [])) (1, 2, 5) = None
  /\ get_edge_data (edges (edit_edges Scenario.avenue ([] ++ [m])))
       (2, 1, 1)
     = Some (set_state "blocked" Scenario.street_edge).
Proof.
  intros m. split; [reflexivity|].
  exact (proj2 (UtilsMore.edit_edges_missing_target Scenario.avenue [] m
                  eq_refl) 1 Scenario.street_edge eq_refl).
Defined.


(** X9: three survivors on a meridian, at 0 m, 5 m and 20 m. *)
Lemma deduplicate_nodes_well_separated_witness :
  let nodes := [Scenario.request 1 0 SURVIVOR (Some 3) (Some 2);
                Scenario.request 2 5 SURVIVOR (Some 4) (Some 1);
                Scenario.request 3 20 SURVIVOR (Some 1) (Some 7)] in
  let kept := [Scenario.request 1 0 SURVIVOR (Some 4) (Some 3);
               Scenario.request 3 20 SURVIVOR (Some 1) (Some 7)] in
  deduplicate_nodes Scenario.meridian_distance nodes = Ok kept
  /\ Measures.well_separated Scenario.meridian_distance kept.
Proof.
  intros nodes kept. split; [reflexivity|].
  apply (UtilsMore.deduplicate_nodes_well_separated
           Scenario.meridian_distance nodes kept).
  reflexivity.
Defined.

(** X10, at a concrete input. *)
Lemma deduplicate_nodes_keeps_places_witness :
  let nodes := [Scenario.request 1 0 SURVIVOR (Some 3) (Some 2);
                Scenario.request 2 5 SURVIVOR (Some 4) (Some 1);
                Scenario.request 3 20 SURVIVOR (Some 1) (Some 7)] in
  let kept := [Scenario.request 1 0 SURVIVOR (Some 4) (Some 3);
               Scenario.request 3 20 SURVIVOR (Some 1) (Some 7)] in
  deduplicate_nodes Scenario.meridian_distance nodes = Ok kept
  /\ sublist (map Measures.place kept) (map Measures.place nodes)
  /\ (length kept <= length nodes)%nat.
Proof.
  intros nodes kept. split; [reflexivity|].
  apply (UtilsMore.deduplicate_nodes_keeps_places
           Scenario.meridian_distance nodes kept).
  reflexivity.
Defined.


(** X12: two survivors on the street, 30 m and 100 m east of node 1: the first
    is snapped to node 1, the second splits the street. *)
Lemma integrate_records_every_request_witness :
  let nodes := [Scenario.on_street 7 30 SURVIVOR (Some 3) (Some 2);
                Scenario.on_street 8 100 SURVIVOR (Some 1) (Some 1)] in
  exists G' snapped_nodes,
    integrate_nodes_into_graph Scenario.street_distance
      Scenario.street_project Scenario.street_interpolate
      Scenario.street_substring Scenario.street_length Scenario.hash_at
      Scenario.nearest_on_street (fun n => inject_Z (Z.of_nat n))
      Scenario.street nodes
    = Ok (G', snapped_nodes)
    /\ map graph_id snapped_nodes = [1; -1234567]
    /\ map req snapped_nodes = nodes.
Proof.
  intros nodes. eexists _, _. split; [vm_compute; reflexivity|].
  split; [reflexivity|].
  eapply (UtilsMore.integrate_records_every_request
            Scenario.street_distance Scenario.street_project
            Scenario.street_interpolate Scenario.street_substring
            Scenario.street_length Scenario.hash_at
            Scenario.nearest_on_street (fun n => inject_Z (Z.of_nat n))
            Scenario.street).
  vm_compute. reflexivity.
Defined.

(** X13, at a concrete input. *)
Lemma integrate_records_graph_nodes_witness :
  let nodes := [Scenario.on_street 7 30 SURVIVOR (Some 3) (Some 2);
                Scenario.on_street 8 100 SURVIVOR (Some 1) (Some 1)] in
  exists G' snapped_nodes,
    integrate_nodes_into_graph Scenario.street_distance
      Scenario.street_project Scenario.street_interpolate
      Scenario.street_substring Scenario.street_length Scenario.hash_at
      Scenario.nearest_on_street (fun n => inject_Z (Z.of_nat n))
      Scenario.street nodes
    = Ok (G', snapped_nodes)
    /\ dom (Utils.nodes Scenario.street) ⊆ dom (Utils.nodes G')
    /\ Forall (fun item => graph_id item ∈ dom (Utils.nodes G'))
              snapped_nodes.
Proof.
  intros nodes.
  assert (H : exists G' snapped_nodes,
             integrate_nodes_into_graph Scenario.street_distance
               Scenario.street_project Scenario.street_interpolate
               Scenario.street_substring Scenario.street_length
               Scenario.hash_at Scenario.nearest_on_street
               (fun n => inject_Z (Z.of_nat n)) Scenario.street nodes
             = Ok (G', snapped_nodes))
    by (eexists _, _; vm_compute; reflexivity).
  destruct H as (G' & snapped_nodes & H). exists G', snapped_nodes.
  split; [exact H|].
  exact (UtilsMore.integrate_records_graph_nodes
           Scenario.street_distance Scenario.street_project
           Scenario.street_interpolate Scenario.street_substring
           Scenario.street_length Scenario.hash_at
           Scenario.nearest_on_street (fun n => inject_Z (Z.of_nat n))
           Scenario.street G' nodes snapped_nodes H).
Defined.

(** X14: the street with its eastbound edge blocked: a survivor 100 m from
    either end is snapped to node 2 and nothing is split. *)
Lemma integrate_snaps_on_blocked_edge_witness :
  let G := edit_edges Scenario.street [Scenario.block_1_2] in
  let node_req := Scenario.on_street 8 100 SURVIVOR (Some 1) (Some 1) in
  get_edge_data (edges G) (1, 2, 0)
  = Some (set_state "blocked" Scenario.street_edge)
  /\ integrate_nodes_into_graph Scenario.street_distance
       Scenario.street_project Scenario.street_interpolate
       Scenario.street_substring Scenario.street_length Scenario.hash_at
       Scenario.nearest_on_street Scenario.clock G ([] ++ [node_req])
     = Ok (G, [] ++ [mkSnapped 2 node_req]).
Proof.
  intros G node_req. split; [reflexivity|].
  apply (UtilsMore.integrate_snaps_on_blocked_edge
           Scenario.street_distance Scenario.street_project
           Scenario.street_interpolate Scenario.street_substring
           Scenario.street_length Scenario.hash_at
           Scenario.nearest_on_street Scenario.clock
           G [] node_req (mkIntState G [] 0) 1 2 0
           0%Q 0%Q (200 # 111195)%Q 0%Q
           (set_state "blocked" Scenario.street_edge));
    try reflexivity; vm_compute; discriminate.
Defined.

(** X15: the scenario of the star: one route, from the pickup. *)
Lemma solve_routes_routes_start_at_pickups_witness :
  Router.solve_routes Scenario.star_length Scenario.star_path
    [Scenario.S1; Scenario.S2] [1]
  = Some (Ok [[1; 2; 1; 3; 1]])
  /\ (length [[1; 2; 1; 3; 1]] <= length [1])%nat
  /\ Forall (fun route =>
               (2 <= length route)%nat
               /\ exists p, p ∈ [1] /\ head route = Some p)
            [[1; 2; 1; 3; 1]].
Proof.
  split; [reflexivity|].
  apply (RouterMore.solve_routes_routes_start_at_pickups
           Scenario.star_length Scenario.star_path
           [Scenario.S1; Scenario.S2] [1] [[1; 2; 1; 3; 1]]).
  reflexivity.
Defined.

(** X16: a survivor on the pickup's node and one cut off from it. *)
Lemma solve_routes_skips_survivors_at_pickups_witness :
  let survivors := [Scenario.survivor_at 1 3 2; Scenario.survivor_at 9 5 1] in
  (forall p s, p ∈ [1] -> s ∈ survivors ->
     p = graph_id s \/ Scenario.star_length p (graph_id s) = None)
  /\ Router.solve_routes Scenario.star_length Scenario.star_path
       survivors [1]
     = Some (Ok []).
Proof.
  intros survivors.
  assert (H : forall p s, p ∈ [1] -> s ∈ survivors ->
                p = graph_id s
                \/ Scenario.star_length p (graph_id s) = None).
  { intros p s Hp Hs. apply list_elem_of_singleton in Hp. subst p.
    apply elem_of_cons in Hs as [->|Hs]; [left; reflexivity|].
    apply list_elem_of_singleton in Hs. subst s. right. reflexivity. }
  split; [exact H|].
  exact (RouterMore.solve_routes_skips_survivors_at_pickups
           Scenario.star_length Scenario.star_path survivors [1] H).
Defined.

(** X17: two survivor requests snapped to node 2, one to node 3, and a
    pickup. *)
Lemma survivors_of_one_per_node_witness :
  let snapped_data := [Scenario.survivor_at 2 5 1; Scenario.pickup_at 1;
                       Scenario.survivor_at 2 3 4;
                       Scenario.survivor_at 3 1 10] in
  let survivors_data :=
    [mkSnapped 2 (mkNodeData 2 0 0 SURVIVOR (Some 5) (Some 5));
     Scenario.survivor_at 3 1 10] in
  Main.survivors_of snapped_data = Ok survivors_data
  /\ NoDup (map graph_id survivors_data)
  /\ Measures.survivors_count survivors_data
     = Measures.survivors_count snapped_data.
Proof.
  intros snapped_data survivors_data. split; [reflexivity|].
  destruct (MainMore.survivors_of_one_per_node snapped_data survivors_data
              eq_refl) as (Hnd & _ & Hcount & _).
  split; [exact Hnd|exact Hcount].
Defined.


(** X19: the request of the star's scenario through the dispatch of
    [infer_routes]. *)
Lemma route_starts_at_pickup_requests_witness :
  let snapped_data := [Scenario.pickup_at 1; Scenario.S1; Scenario.S2] in
  Main.route Scenario.star_length Scenario.star_path snapped_data
  = Some (Ok [[1; 2; 1; 3; 1]])
  /\ Forall (fun r =>
               exists item,
                 item ∈ snapped_data /\ nd_type (req item) = PICKUP
                 /\ head r = Some (graph_id item))
            [[1; 2; 1; 3; 1]].
Proof.
  intros snapped_data. split; [reflexivity|].
  exact (proj2 (MainMore.route_starts_at_pickup_requests
                  Scenario.star_length Scenario.star_path snapped_data
                  [[1; 2; 1; 3; 1]] eq_refl)).
Defined.

(** X21: two words, one of them unknown, padded to four tokens. *)
Lemma tokenize_words_pads_or_truncates_witness :
  let vocab : gmap string Z :=
    <["fire"%string := 7]> (<["<UNK>"%string := 1]>
                              (<["<PAD>"%string := 0]> ∅)) in
  0 <= 4
  /\ Text.tokenize_words ["fire"%string; "zzz"%string] vocab 4 = [7; 1; 0; 0]
  /\ length (Text.tokenize_words ["fire"%string; "zzz"%string] vocab 4)
     = Z.to_nat 4.
Proof.
  intros vocab. split; [lia|]. split; [reflexivity|].
  apply (proj1 (TextMore.tokenize_words_pads_or_truncates
                  ["fire"%string; "zzz"%string] vocab 4 ltac:(lia))).
Defined.

(** X22, at a concrete input. *)
Lemma triage_is_monotone_witness :
  (7 # 10 <= 9 # 10)%Q
  /\ (Text.priority_rank (snd (Text.triage (7 # 10)))
      <= Text.priority_rank (snd (Text.triage (9 # 10))))%nat.
Proof.
  assert (H : (7 # 10 <= 9 # 10)%Q) by lra.
  split; [exact H|].
  exact (proj1 (TextMore.triage_is_monotone (7 # 10) (9 # 10) H)).
Defined.


End MoreWitnesses.
